(** * solus: LSB steganography codec (src/solus.py)

    A shallow embedding of the bit-level codec of [solus.py]: the mask
    arithmetic, the pixel iteration, the repeating-key XOR, the capacity
    formula, the prologue / length / payload packer and unpacker, and the
    two convenience entry points of the encoder.

    Conventions of the embedding.
    - Python integers are [Z]; [//] is [floordiv] (raising on a zero divisor),
      [&], [|], [^], [<<], [>>] are [Z.land], [Z.lor], [Z.lxor], [Z.shiftl],
      [Z.shiftr].
    - [bytes] values are [list Byte.byte].
    - A raised exception is a [Raise e] result.  Methods that mutate the
      image return the image they leave behind together with the result,
      also when they raise, so partial writes are visible.
    - The image is the numpy array [self._img]: its shape [(h, w, 3)] and its
      flat, row-major channel buffer.  [img[h, w]] is a view: writing
      [px[c]] writes the buffer.
    - Channel values are [uint8].  The only arithmetic on them is
      [(px[c] & m0) | (value & m1)] with masks below 256, which stays within
      8 bits (lemma [merge_range]), so no wrap-around arises.
    - [print] calls only write to standard output and are left out.
    - [decode] tests [isinstance(xor_key, (bytes, types.NoneType))]; the
      embedding is of an interpreter that has [types.NoneType]. *)

From Stdlib Require Import ZArith Lia.
From Stdlib.Strings Require Import Ascii String Byte.
From stdpp Require Import base tactics option list.

Local Open Scope Z_scope.

(** ** Exceptions and results *)

Inductive exn : Set :=
| TypeError | ValueError | AssertionError | StopIteration
| ZeroDivisionError | IndexError | IOError | BinasciiError
| UnexpectedXOR | InvalidImage | TooMuchData | InvalidLSB | InvalidXOR
| MissingXOR.

Inductive result (A : Type) : Type :=
| Ok (a : A)
| Raise (e : exn).

Arguments Ok {A} a.
Arguments Raise {A} e.

#[global] Instance exn_eq_dec : EqDecision exn.
Proof. solve_decision. Defined.

#[global] Instance result_eq_dec {A} `{EqDecision A} : EqDecision (result A).
Proof. solve_decision. Defined.

#[global] Instance result_ret : MRet result := fun A a => Ok a.
#[global] Instance result_bind : MBind result := fun A B f m =>
  match m with
  | Ok a => f a
  | Raise e => Raise e
  end.

Definition bytes := list byte.

Definition byte_to_Z (b : byte) : Z := Z.of_N (Byte.to_N b).
Definition byte_of_Z (z : Z) : byte :=
  match Byte.of_N (Z.to_N z) with
  | Some b => b
  | None => "000"%byte
  end.

(** [d ^ k] on two byte values. *)
Definition byte_xor (d k : byte) : byte :=
  byte_of_Z (Z.lxor (byte_to_Z d) (byte_to_Z k)).

(** ** Module constants *)

Definition CHAN_SIZE : Z := 8.
Definition PROLOG_SIZE : Z := 2.
Definition LEN_SIZE : Z := 4.
Definition CHAN_CNT : Z := 3.

(** [range(n)] for a Python integer [n]. *)
Definition range (n : Z) : list nat := seq 0 (Z.to_nat n).

(** [a // b] *)
Definition floordiv (a b : Z) : result Z :=
  if b =? 0 then Raise ZeroDivisionError else Ok (a / b).

(** [lsb_check(bits)] on an integer argument ([int(bits)] is then [bits]). *)
Definition lsb_check (bits : Z) : result Z :=
  if (bits >? CHAN_SIZE) || (bits <=? 0) then Raise InvalidLSB else Ok bits.

(** ** The image *)

Record image : Type := Image {
  shape_h : nat;
  shape_w : nat;
  buffer : list Z
}.

(** The buffer of an array holds one value per element of its shape. *)
Definition wf_image (im : image) : Prop :=
  length (buffer im) = (shape_h im * shape_w im * Z.to_nat CHAN_CNT)%nat.

(** [img.size] *)
Definition img_size (im : image) : Z :=
  Z.of_nat (shape_h im) * Z.of_nat (shape_w im) * CHAN_CNT.

(** A pixel position [(h, w)]. *)
Abbreviation position := (nat * nat)%type.

(** Offset of [img[h, w][c]] in the buffer. *)
Definition offset (im : image) (p : position) (c : nat) : nat :=
  ((p.1 * shape_w im + p.2) * Z.to_nat CHAN_CNT + c)%nat.

(** [px[c]] for the view [px = img[h, w]]. *)
Definition get_chan (im : image) (p : position) (c : nat) : result Z :=
  match buffer im !! offset im p c with
  | Some x => Ok x
  | None => Raise IndexError
  end.

(** [px[c] = v] *)
Definition set_chan (im : image) (p : position) (c : nat) (v : Z) : result image :=
  if decide (offset im p c < length (buffer im))%nat
  then Ok (Image (shape_h im) (shape_w im) (<[offset im p c := v]> (buffer im)))
  else Raise IndexError.

(** ** Hexadecimal text ([binascii], [int(_, 16)], [str.format], [str.zfill])

    Python strings are lists of characters. *)

Definition hex_char (n : Z) : ascii :=
  ascii_of_nat (Z.to_nat (if n <? 10 then 48 + n else 87 + n)).

Definition hex_val (c : ascii) : option Z :=
  let n := Z.of_nat (nat_of_ascii c) in
  if (48 <=? n) && (n <=? 57) then Some (n - 48)
  else if (97 <=? n) && (n <=? 102) then Some (n - 87)
  else if (65 <=? n) && (n <=? 70) then Some (n - 55)
  else None.

(** [binascii.hexlify(b)]: two lower-case digits per byte. *)
Definition hexlify (b : bytes) : list ascii :=
  flat_map (fun x => [hex_char (byte_to_Z x / 16); hex_char (byte_to_Z x mod 16)]) b.

(** [binascii.unhexlify(s)]: fails on an odd number of digits and on a
    character that is no hexadecimal digit. *)
Fixpoint unhexlify (s : list ascii) : result bytes :=
  match s with
  | [] => Ok []
  | [_] => Raise BinasciiError
  | hi :: lo :: s' =>
      match hex_val hi, hex_val lo with
      | Some h, Some l => rest ← unhexlify s'; Ok (byte_of_Z (h * 16 + l) :: rest)
      | _, _ => Raise BinasciiError
      end
  end.

(** [int(s, 16)] on a string of hexadecimal digits, which is all [hexlify]
    produces: the empty string and any other character are a [ValueError]. *)
Definition int16_step (acc : result Z) (c : ascii) : result Z :=
  a ← acc;
  match hex_val c with
  | Some d => Ok (a * 16 + d)
  | None => Raise ValueError
  end.

Definition int16 (s : list ascii) : result Z :=
  match s with
  | [] => Raise ValueError
  | _ => fold_left int16_step s (Ok 0)
  end.

(** Number of hexadecimal digits of [i >= 0], at least one. *)
Definition hex_len (i : Z) : nat :=
  if i =? 0 then 1%nat else S (Z.to_nat (Z.log2 i / 4)).

Definition hex_digits (i : Z) : list ascii :=
  map (fun k => hex_char (Z.land (Z.shiftr i (4 * Z.of_nat k)) 15))
      (rev (seq 0 (hex_len i))).

(** ["{:x}".format(i)] *)
Definition format_x (i : Z) : list ascii :=
  if i <? 0 then "-"%char :: hex_digits (- i) else hex_digits i.

(** [s.zfill(width)]: zeros go after a leading sign. *)
Definition zfill (width : Z) (s : list ascii) : list ascii :=
  let pad := repeat "0"%char (Z.to_nat width - length s) in
  match s with
  | c :: s' =>
      if (Ascii.eqb c "-" || Ascii.eqb c "+")%bool then c :: pad ++ s' else pad ++ s
  | [] => pad
  end.

Module LSBCodec.

Definition XOR_Y : Z := 56.   (* 0b111000 *)
Definition XOR_N : Z := 0.    (* 0b000000 *)

(** The generator of [iter_pixels], as the positions it still has to
    yield; the pixel it yields with a position is the view [img[h, w]]. *)
Definition iter_pixels (im : image) : list position :=
  flat_map (fun h => map (fun w => (h, w)) (seq 0 (shape_w im)))
           (seq 0 (shape_h im)).

(** zip(data, itertools.cycle(key)): [rest] is what is left of the current
    pass over [key]. *)
Fixpoint xor_cycle (data rest key : list byte) : list byte :=
  match data with
  | [] => []
  | d :: data' =>
      match rest with
      | k :: rest' => byte_xor d k :: xor_cycle data' rest' key
      | [] =>
          match key with
          | k :: rest' => byte_xor d k :: xor_cycle data' rest' key
          | [] => []
          end
      end
  end.

Definition xor (data key : bytes) : bytes := xor_cycle data key key.

Definition available (im : image) (lsb_cnt : Z) : result Z :=
  per ← floordiv CHAN_SIZE lsb_cnt;
  q ← floordiv (img_size im - PROLOG_SIZE) per;
  Ok (q - LEN_SIZE - 1).

Definition genmask (size : Z) : result Z :=
  if size <=? CHAN_SIZE then Ok (Z.shiftl 1 size) else Raise AssertionError.

Definition gen1mask (size : Z) : result Z :=
  fold_left (fun acc i => mask ← acc; g ← genmask (Z.of_nat i); Ok (Z.lor mask g))
            (range size) (Ok 0).

Definition gen0mask (size : Z) : result Z :=
  a ← gen1mask CHAN_SIZE; b ← gen1mask size; Ok (Z.lxor a b).

Definition bytes_to_int (b : bytes) : result Z := int16 (hexlify b).

Definition int_to_bytes (i size : Z) : result bytes :=
  unhexlify (zfill (size * 2) (format_x i)).

End LSBCodec.

(** ** The codec state

    One encode or decode call works on the image and on one generator
    [piter = self.iter_pixels()].  Both are mutable objects shared by the
    helper calls, so they are threaded as a state; an exception leaves the
    state as it is at the raise. *)

Record state : Type := State {
  img : image;
  piter : list position
}.

Definition M (A : Type) : Type := state -> state * result A.

#[global] Instance M_ret : MRet M := fun A a st => (st, Ok a).
#[global] Instance M_bind : MBind M := fun A B f m st =>
  match m st with
  | (st', Ok a) => f a st'
  | (st', Raise e) => (st', Raise e)
  end.

Definition lift {A} (r : result A) : M A := fun st => (st, r).
Definition get_img : M image := fun st => (st, Ok (img st)).
Definition raise {A} (e : exn) : M A := fun st => (st, Raise e).

(** [try: body  except (handled): raise e'] on a pure body. *)
Definition try_except {A} (body : result A) (handled : exn -> bool) (e' : exn) : result A :=
  match body with
  | Ok a => Ok a
  | Raise e => if handled e then Raise e' else Raise e
  end.

(** [piter = self.iter_pixels()]: a fresh generator over the image. *)
Definition new_piter : M unit :=
  fun st => (State (img st) (LSBCodec.iter_pixels (img st)), Ok tt).

Module LSBDecoder.

(** The [for c in range(CHAN_CNT)] loop of [_decode_data] on the pixel at
    [p]; it returns the updated [value], [pos] and [shifts]. *)
Fixpoint decode_channels (cs : list nat) (im : image) (p : position)
    (m1 lsb_cnt value pos shifts : Z) : result (Z * Z * Z) :=
  match cs with
  | [] => Ok (value, pos, shifts)
  | c :: cs' =>
      if shifts =? 0 then Ok (value, pos, shifts)
      else
        x ← get_chan im p c;
        decode_channels cs' im p m1 lsb_cnt
          (Z.lor value (Z.shiftl (Z.land x m1) (pos * lsb_cnt)))
          (pos + 1) (shifts - 1)
  end.

(** The [while shifts] loop: every round takes the next pixel of the
    generator, so the loop is a recursion on what the generator has left. *)
Fixpoint decode_while (it : list position) (im : image)
    (m1 lsb_cnt value pos shifts : Z) : state * result Z :=
  if shifts =? 0 then (State im it, Ok value)
  else
    match it with
    | [] => (State im [], Raise StopIteration)
    | p :: it' =>
        match decode_channels (range CHAN_CNT) im p m1 lsb_cnt value pos shifts with
        | Ok (value', pos', shifts') =>
            decode_while it' im m1 lsb_cnt value' pos' shifts'
        | Raise e => (State im it', Raise e)
        end
    end.

Definition decode_loop (m1 lsb_cnt value pos shifts : Z) : M Z :=
  fun st => decode_while (piter st) (img st) m1 lsb_cnt value pos shifts.

Definition _decode_data (shifts lsb_cnt : Z) : M Z :=
  _ ← lift (LSBCodec.gen0mask lsb_cnt);
  m1 ← lift (LSBCodec.gen1mask lsb_cnt);
  decode_loop m1 lsb_cnt 0 0 shifts.

Definition decode_m (xor_key : option bytes) : M bytes :=
  _ ← new_piter;
  m0 ← lift (LSBCodec.gen0mask CHAN_CNT);
  m1 ← lift (LSBCodec.gen1mask CHAN_CNT);
  prolog ← _decode_data (PROLOG_SIZE * CHAN_CNT) 1;
  let xor := Z.land prolog m0 in
  let lsb_cnt := Z.land prolog m1 in
  lsb_cnt ← lift (try_except
                    (if negb ((xor =? LSBCodec.XOR_Y) || (xor =? LSBCodec.XOR_N))
                     then Raise InvalidXOR
                     else lsb_check lsb_cnt)
                    (fun e => match e with InvalidXOR | InvalidLSB => true | _ => false end)
                    ValueError);
  if (xor =? LSBCodec.XOR_Y) && (if xor_key is None then true else false)
  then raise MissingXOR
  else
    n ← lift (floordiv (LEN_SIZE * CHAN_SIZE) lsb_cnt);
    size ← _decode_data n lsb_cnt;
    n ← lift (floordiv (size * CHAN_SIZE) lsb_cnt);
    data ← _decode_data n lsb_cnt;
    data ← lift (LSBCodec.int_to_bytes data size);
    if xor =? LSBCodec.XOR_Y
    then match xor_key with
         | Some key => mret (LSBCodec.xor data key)
         | None => raise TypeError
         end
    else mret data.

(** [LSBDecoder(im).decode(xor_key)] *)
Definition decode (im : image) (xor_key : option bytes) : result bytes :=
  (decode_m xor_key (State im [])).2.

End LSBDecoder.

(** A Python object given where a key is expected: [None], an integer or a
    bytes object. *)
Inductive pyval : Type :=
| PyNone
| PyInt (z : Z)
| PyBytes (b : bytes).

(** An optional key as the object it is. *)
Definition key_object (xor_key : option bytes) : pyval :=
  match xor_key with
  | Some key => PyBytes key
  | None => PyNone
  end.

Module LSBEncoder.

(** The [for c in range(CHAN_CNT)] loop of [_encode_data] on the pixel at
    [p]; it returns the updated [value] and [shifts]. *)
Fixpoint encode_channels (cs : list nat) (p : position)
    (m0 m1 lsb_cnt value shifts : Z) (im : image) : image * result (Z * Z) :=
  match cs with
  | [] => (im, Ok (value, shifts))
  | c :: cs' =>
      if shifts =? 0 then (im, Ok (value, shifts))
      else
        match get_chan im p c with
        | Raise e => (im, Raise e)
        | Ok x =>
            match set_chan im p c (Z.lor (Z.land x m0) (Z.land value m1)) with
            | Raise e => (im, Raise e)
            | Ok im' =>
                encode_channels cs' p m0 m1 lsb_cnt
                  (Z.shiftr value lsb_cnt) (shifts - 1) im'
            end
        end
  end.

Fixpoint encode_while (it : list position) (m0 m1 lsb_cnt value shifts : Z)
    (im : image) : state * result unit :=
  if shifts =? 0 then (State im it, Ok tt)
  else
    match it with
    | [] => (State im [], Raise StopIteration)
    | p :: it' =>
        match encode_channels (range CHAN_CNT) p m0 m1 lsb_cnt value shifts im with
        | (im', Ok (value', shifts')) =>
            encode_while it' m0 m1 lsb_cnt value' shifts' im'
        | (im', Raise e) => (State im' it', Raise e)
        end
    end.

Definition encode_loop (m0 m1 lsb_cnt value shifts : Z) : M unit :=
  fun st => encode_while (piter st) m0 m1 lsb_cnt value shifts (img st).

Definition _encode_data (value shifts lsb_cnt : Z) : M unit :=
  m0 ← lift (LSBCodec.gen0mask lsb_cnt);
  m1 ← lift (LSBCodec.gen1mask lsb_cnt);
  encode_loop m0 m1 lsb_cnt value shifts.

Definition encode_m (data : bytes) (lsb_cnt : Z) (xor_key : option bytes) : M unit :=
  checked ← lift (lsb_check lsb_cnt);
  if checked =? 0 then raise AssertionError
  else
    _ ← new_piter;
    let size := Z.of_nat (length data) in
    im ← get_img;
    avail ← lift (LSBCodec.available im lsb_cnt);
    if size >? avail then raise TooMuchData
    else
      let data := match xor_key with
                  | Some key => LSBCodec.xor data key
                  | None => data
                  end in
      data ← lift (LSBCodec.bytes_to_int data);
      let prolog :=
        Z.lor (if xor_key is None then LSBCodec.XOR_N else LSBCodec.XOR_Y) lsb_cnt in
      _ ← _encode_data prolog (PROLOG_SIZE * CHAN_CNT) 1;
      n ← lift (floordiv (LEN_SIZE * CHAN_SIZE) lsb_cnt);
      _ ← _encode_data size n lsb_cnt;
      n ← lift (floordiv (size * CHAN_SIZE) lsb_cnt);
      _encode_data data n lsb_cnt.

(** [LSBEncoder(im).encode(data, lsb_cnt, xor_key)]: the image the call
    leaves behind and its outcome. *)
Definition encode (im : image) (data : bytes) (lsb_cnt : Z)
    (xor_key : option bytes) : image * result unit :=
  let r := encode_m data lsb_cnt xor_key (State im []) in (img r.1, r.2).

(** *** The convenience entry points

    [encode_string] and [encode_file] call [self.encode(data, xor_key)]:
    their [xor_key] arrives as [encode]'s second positional parameter
    [lsb_cnt], and [encode]'s own [xor_key] keeps its default [None].
    So [encode] runs on a bit width that is whatever object the caller
    gave as key.  What Python's builtins do is taken as given:
    [int_of_bytes b] is the integer [int(b)] reads from a bytes object, if
    it spells one; [str_encode] is [str.encode]; [read_file] is opening
    and reading a file, which may raise. *)
Section EntryPoints.

Variable int_of_bytes : bytes -> option Z.
Variable pystr : Type.
Variable str_encode : pystr -> bytes.
Variable filename : Type.
Variable read_file : filename -> result bytes.

(** [int(v)] *)
Definition py_int (v : pyval) : result Z :=
  match v with
  | PyInt z => Ok z
  | PyNone => Raise TypeError
  | PyBytes b =>
      match int_of_bytes b with
      | Some z => Ok z
      | None => Raise ValueError
      end
  end.

(** [lsb_check(bits)] on any object. *)
Definition lsb_check_dyn (bits : pyval) : result Z :=
  bits ← py_int bits; lsb_check bits.

(** [encode(data, lsb_cnt)] with any object as [lsb_cnt]: after
    [assert lsb_check(lsb_cnt)] the first use of [lsb_cnt] is
    [CHAN_SIZE // lsb_cnt] in [available], a [TypeError] unless
    [lsb_cnt] is an integer. *)
Definition encode_dyn (im : image) (data : bytes) (lsb_cnt : pyval)
    (xor_key : option bytes) : image * result unit :=
  match lsb_check_dyn lsb_cnt with
  | Raise e => (im, Raise e)
  | Ok checked =>
      if checked =? 0 then (im, Raise AssertionError)
      else
        match lsb_cnt with
        | PyInt z => encode im data z xor_key
        | _ => (im, Raise TypeError)
        end
  end.

Definition encode_string (im : image) (string : pystr) (xor_key : pyval)
    : image * result unit :=
  encode_dyn im (str_encode string) xor_key None.

Definition encode_file (im : image) (fn : filename) (xor_key : pyval)
    : image * result unit :=
  match read_file fn with
  | Raise e => (im, Raise e)
  | Ok data => encode_dyn im data xor_key None
  end.

End EntryPoints.

End LSBEncoder.

(** An image of zero-valued pixels. *)
Definition zeros (h w : nat) : image :=
  Image h w (repeat 0 (h * w * Z.to_nat CHAN_CNT)).

(** ** Channel-level view of the packer and unpacker

    What [_encode_data] and [_decode_data] do to the flat buffer, chunk by
    chunk, used to state and prove the properties of the loops. *)

Definition merge (m0 m1 old v : Z) : Z := Z.lor (Z.land old m0) (Z.land v m1).

Fixpoint write_chunks (m0 m1 lsb : Z) (n off : nat) (v : Z) (buf : list Z) : list Z :=
  match n with
  | O => buf
  | S n' =>
      write_chunks m0 m1 lsb n' (S off) (Z.shiftr v lsb)
        (<[off := merge m0 m1 (default 0 (buf !! off)) v]> buf)
  end.

Fixpoint read_chunks (m1 lsb : Z) (n off : nat) (pos acc : Z) (buf : list Z) : Z :=
  match n with
  | O => acc
  | S n' =>
      read_chunks m1 lsb n' (S off) (pos + 1)
        (Z.lor acc (Z.shiftl (Z.land (default 0 (buf !! off)) m1) (pos * lsb))) buf
  end.

Definition ceil3 (n : nat) : nat := ((n + 2) / 3)%nat.

Definition at_pixel (im : image) (it : list position) (k : nat) : Prop :=
  map (fun p => offset im p 0) it = map (fun i => (3 * i)%nat) (seq k (length it))
  /\ length (buffer im) = (3 * (k + length it))%nat.

Definition with_buffer (im : image) (buf : list Z) : image :=
  Image (shape_h im) (shape_w im) buf.


(** The value of a byte string read as a big-endian number, and the [n]
    big-endian bytes of a number. *)
Definition be_int (b : bytes) : Z :=
  fold_left (fun a x => a * 256 + byte_to_Z x) b 0.

Definition be_bytes (n : nat) (v : Z) : bytes :=
  map (fun j => byte_of_Z (Z.land (Z.shiftr v (8 * Z.of_nat j)) 255)) (rev (seq 0 n)).

(** The masks [gen0mask(lsb_cnt)] and [gen1mask(lsb_cnt)] compute. *)
Definition mask0 (lsb : Z) : Z := Z.lxor 255 (Z.ones lsb).
Definition mask1 (lsb : Z) : Z := Z.ones lsb.

(** Chunk counts of the length field and of a payload of [size] bytes. *)
Definition len_chunks (lsb : Z) : nat := Z.to_nat (LEN_SIZE * CHAN_SIZE / lsb).
Definition data_chunks (lsb : Z) (size : nat) : nat :=
  Z.to_nat (Z.of_nat size * CHAN_SIZE / lsb).

(** Pixels an encode call consumes: each of the three fields starts on a
    fresh pixel. *)
Definition pixels_needed (lsb : Z) (size : nat) : nat :=
  (2 + ceil3 (len_chunks lsb) + ceil3 (data_chunks lsb size))%nat.

(** The buffer after the prologue [prolog], the length [size] and the
    payload value [v] have been written. *)
Definition encoded_buffer (lsb prolog : Z) (size : nat) (v : Z) (buf : list Z) : list Z :=
  let b1 := write_chunks (mask0 1) (mask1 1) 1 6 0 prolog buf in
  let b2 := write_chunks (mask0 lsb) (mask1 lsb) lsb (len_chunks lsb) 6 (Z.of_nat size) b1 in
  write_chunks (mask0 lsb) (mask1 lsb) lsb (data_chunks lsb size)
    (3 * (2 + ceil3 (len_chunks lsb))) v b2.

(** The payload as [encode] packs it, and the prologue it writes. *)
Definition keyed (data : bytes) (xor_key : option bytes) : bytes :=
  match xor_key with
  | Some key => LSBCodec.xor data key
  | None => data
  end.

Definition prolog_of (lsb : Z) (xor_key : option bytes) : Z :=
  Z.lor (if xor_key is None then LSBCodec.XOR_N else LSBCodec.XOR_Y) lsb.

(** What [available] evaluates to for a valid bit width. *)
Definition available_value (im : image) (lsb : Z) : Z :=
  (img_size im - PROLOG_SIZE) / (CHAN_SIZE / lsb) - LEN_SIZE - 1.

(** The three packing calls of [encode], in order. *)
Definition encode_fields (lsb prolog : Z) (size : nat) (v : Z) : M unit :=
  _ ← LSBEncoder._encode_data prolog (PROLOG_SIZE * CHAN_CNT) 1;
  _ ← LSBEncoder._encode_data (Z.of_nat size) (Z.of_nat (len_chunks lsb)) lsb;
  LSBEncoder._encode_data v (Z.of_nat (data_chunks lsb size)) lsb.

(** The header checks of [decode]. *)
Definition header_check (prolog : Z) : result Z :=
  try_except
    (if negb ((Z.land prolog 248 =? LSBCodec.XOR_Y) || (Z.land prolog 248 =? LSBCodec.XOR_N))
     then Raise InvalidXOR
     else lsb_check (Z.land prolog 7))
    (fun e => match e with InvalidXOR | InvalidLSB => true | _ => false end)
    ValueError.

(** What [decode] recovers as the payload value: the low
    [data_chunks * lsb] bits of what was packed. *)
Definition recovered (lsb : Z) (size : nat) (v : Z) : bytes :=
  be_bytes size (Z.land v (Z.ones (Z.of_nat (data_chunks lsb size) * lsb))).

(** Exceptions the packing loops can raise. *)
Definition loop_exn (e : exn) : bool :=
  match e with
  | AssertionError | StopIteration | IndexError => true
  | _ => false
  end.


(** Bits the length field holds at a bit width. *)
Definition length_field_bits (lsb : Z) : Z := Z.of_nat (len_chunks lsb) * lsb.

(** The prologue's flag field, its width field and the length field, as
    [decode] reads them from an image. *)
Definition read_fields (im : image) : result (Z * Z * Z) :=
  ((prolog ← LSBDecoder._decode_data (PROLOG_SIZE * CHAN_CNT) 1;
    let flag := Z.land prolog 248 in
    let width := Z.land prolog 7 in
    n ← lift (floordiv (LEN_SIZE * CHAN_SIZE) width);
    size ← LSBDecoder._decode_data n width;
    mret (flag, width, size)) (State im (LSBCodec.iter_pixels im))).2.

(** ** The specification's formulas, as the specification words them *)

(** Capacity: [((gridChannelCount - prologueChannels) // (8 / bitWidth)) -
    lengthFieldBytes - 1] with [prologueChannels = 2 * 3] and
    [lengthFieldBytes = 4]. *)
Definition available_claimed (gridChannelCount bitWidth : Z) : Z :=
  (gridChannelCount - 2 * 3) / (8 / bitWidth) - 4 - 1.

(** Payload chunk count: the ceiling of [size * 8 / BitWidth]. *)
Definition chunks_claimed (size bitWidth : Z) : Z :=
  (size * 8 + bitWidth - 1) / bitWidth.


(** ** Further definitions used to state properties *)

(** The position the generator yields at step [k] of an image of width
    [w]: row-major order. *)
Definition nth_position (w k : nat) : position := ((k / w)%nat, (k mod w)%nat).

(** Two values of a channel that agree outside their low [lsb] bits, the
    second an 8-bit value if the first is. *)
Definition chan_kept (lsb x x' : Z) : Prop :=
  Z.land x' (mask0 lsb) = Z.land x (mask0 lsb) /\ (0 <= x < 256 -> 0 <= x' < 256).

(** Whether the channel at offset [i] of the buffer belongs to one of the
    three fields [encode] writes for [size] bytes at width [lsb]: the six
    prologue channels, the length chunks from offset 6, or the payload
    chunks from the first pixel after the length. *)
Definition field_channel (lsb : Z) (size i : nat) : bool :=
  (i <? 6)%nat
  || ((6 <=? i)%nat && (i <? 6 + len_chunks lsb)%nat)
  || ((3 * (2 + ceil3 (len_chunks lsb)) <=? i)%nat
      && (i <? 3 * (2 + ceil3 (len_chunks lsb)) + data_chunks lsb size)%nat).

(** The least-significant bit of the channel at offset [i]. *)
Definition chan_bit (im : image) (i : nat) : Z :=
  Z.land (default 0 (buffer im !! i)) 1.

(** The prologue value held by the first six channels, and the length
    field held at width [w] by the channels from offset 6 on. *)
Definition stored_prolog (im : image) : Z :=
  read_chunks (mask1 1) 1 6 0 0 0 (buffer im).

Definition stored_length (im : image) (w : Z) : Z :=
  read_chunks (mask1 w) w (len_chunks w) 6 0 0 (buffer im).

(** Pixels [decode] consumes on an image whose header announces width [w]:
    two for the prologue, then the length field, then the payload the
    length field announces. *)
Definition announced_pixels (im : image) (w : Z) : nat :=
  (2 + ceil3 (len_chunks w)
   + ceil3 (Z.to_nat (stored_length im w * CHAN_SIZE / w)))%nat.

(** The payload value held at width [w] after the length field. *)
Definition stored_payload (im : image) (w : Z) : Z :=
  read_chunks (mask1 w) w (Z.to_nat (stored_length im w * CHAN_SIZE / w))
    (3 * (2 + ceil3 (len_chunks w))) 0 0 (buffer im).

(** * Properties *)

(** ** Sanity checks of the embedding on concrete inputs *)

Example gen1mask_3 : LSBCodec.gen1mask 3 = Ok 7.
Proof. reflexivity. Qed.

Example gen0mask_3 : LSBCodec.gen0mask 3 = Ok 248.
Proof. reflexivity. Qed.

Example xor_ex : LSBCodec.xor ["A"; "B"; "C"]%byte ["001"; "002"]%byte = ["@"; "@"; "B"]%byte.
Proof. reflexivity. Qed.

Example bytes_to_int_ABC : LSBCodec.bytes_to_int ["A"; "B"; "C"]%byte = Ok 4276803.
Proof. reflexivity. Qed.

Example bytes_to_int_empty : LSBCodec.bytes_to_int [] = Raise ValueError.
Proof. reflexivity. Qed.

Example int_to_bytes_ABC : LSBCodec.int_to_bytes 4276803 3 = Ok ["A"; "B"; "C"]%byte.
Proof. reflexivity. Qed.

Example int_to_bytes_pad : LSBCodec.int_to_bytes 66 3 = Ok ["000"; "000"; "B"]%byte.
Proof. reflexivity. Qed.

Example int_to_bytes_zero : LSBCodec.int_to_bytes 0 0 = Raise BinasciiError.
Proof. reflexivity. Qed.

Example format_x_255 : format_x 255 = ["f"; "f"]%char.
Proof. reflexivity. Qed.

Example format_x_4096 : format_x 4096 = ["1"; "0"; "0"; "0"]%char.
Proof. reflexivity. Qed.

Example zfill_neg : zfill 6 (format_x (-255)) = ["-"; "0"; "0"; "0"; "f"; "f"]%char.
Proof. reflexivity. Qed.

Example encode_ABC_4x6 :
  (LSBEncoder.encode (zeros 4 6) ["A"; "B"; "C"]%byte 1 None).2 = Ok tt.
Proof. vm_compute. reflexivity. Qed.

Example decode_ABC_4x6 :
  LSBDecoder.decode (LSBEncoder.encode (zeros 4 6) ["A"; "B"; "C"]%byte 1 None).1 None
  = Ok ["A"; "B"; "C"]%byte.
Proof. vm_compute. reflexivity. Qed.

Example encode_ABC_4x4 :
  LSBEncoder.encode (zeros 4 4) ["A"; "B"; "C"]%byte 1 None = (zeros 4 4, Raise TooMuchData).
Proof. vm_compute. reflexivity. Qed.

(** ** Bytes, masks and the XOR stream *)

Lemma byte_to_Z_range b : 0 <= byte_to_Z b < 256.
Proof.
  unfold byte_to_Z. pose proof (Byte.to_N_bounded b). lia.
Qed.

Lemma byte_of_to_Z b : byte_of_Z (byte_to_Z b) = b.
Proof.
  unfold byte_of_Z, byte_to_Z. rewrite N2Z.id, Byte.of_to_N. reflexivity.
Qed.

Lemma byte_to_of_Z z : 0 <= z < 256 -> byte_to_Z (byte_of_Z z) = z.
Proof.
  intros Hz. unfold byte_of_Z, byte_to_Z.
  destruct (Byte.of_N (Z.to_N z)) as [b|] eqn:E.
  - apply Byte.to_of_N in E. rewrite E. lia.
  - apply Byte.of_N_None_iff in E. lia.
Qed.

Lemma lxor_byte_range a b : 0 <= a < 256 -> 0 <= b < 256 -> 0 <= Z.lxor a b < 256.
Proof.
  intros Ha Hb. split.
  - apply Z.lxor_nonneg. lia.
  - destruct (Z.eq_dec (Z.lxor a b) 0) as [->|Hne]; [lia|].
    assert (Hlx : 0 < Z.lxor a b) by (pose proof (proj2 (Z.lxor_nonneg a b)); lia).
    change 256 with (2 ^ 8). apply Z.log2_lt_pow2; [lia|].
    pose proof (Z.log2_lxor a b ltac:(lia) ltac:(lia)) as Hl.
    assert (Z.log2 a < 8).
    { destruct (Z.eq_dec a 0) as [->|]; [simpl; lia|]. apply Z.log2_lt_pow2; lia. }
    assert (Z.log2 b < 8).
    { destruct (Z.eq_dec b 0) as [->|]; [simpl; lia|]. apply Z.log2_lt_pow2; lia. }
    lia.
Qed.

Lemma byte_xor_invol d k : byte_xor (byte_xor d k) k = d.
Proof.
  unfold byte_xor. rewrite byte_to_of_Z.
  - rewrite Z.lxor_assoc, Z.lxor_nilpotent, Z.lxor_0_r. apply byte_of_to_Z.
  - apply lxor_byte_range; apply byte_to_Z_range.
Qed.

Lemma xor_cycle_length data : forall rest key,
  key <> [] -> length (LSBCodec.xor_cycle data rest key) = length data.
Proof.
  induction data as [|d data IH]; intros rest key Hk; [reflexivity|].
  destruct rest as [|k rest]; simpl.
  - destruct key as [|k key']; [congruence|]. simpl. f_equal. apply IH. congruence.
  - f_equal. apply IH. exact Hk.
Qed.

Lemma xor_cycle_invol data : forall rest key,
  key <> [] ->
  LSBCodec.xor_cycle (LSBCodec.xor_cycle data rest key) rest key = data.
Proof.
  induction data as [|d data IH]; intros rest key Hk; [reflexivity|].
  destruct rest as [|k rest]; simpl.
  - destruct key as [|k key'] eqn:E; [congruence|]. simpl.
    rewrite <- E. rewrite (IH _ key) by congruence. f_equal. apply byte_xor_invol.
  - rewrite IH by exact Hk. f_equal. apply byte_xor_invol.
Qed.

(** A decidable property of an integer that holds on each of the [len]
    integers from [lo] on, by a check of them all. *)
Lemma range_cases (P : Z -> Prop) `{forall n, Decision (P n)} (lo : Z) (len : nat) :
  forallb (fun i => bool_decide (P (lo + Z.of_nat i))) (seq 0 len) = true ->
  forall n, lo <= n < lo + Z.of_nat len -> P n.
Proof.
  intros Hall n Hn. rewrite forallb_forall in Hall.
  assert (Hin : In (Z.to_nat (n - lo)) (seq 0 len)) by (apply in_seq; lia).
  specialize (Hall _ Hin).
  rewrite Z2Nat.id in Hall by lia. replace (lo + (n - lo)) with n in Hall by lia.
  exact (bool_decide_eq_true_1 _ Hall).
Qed.

Lemma gen1mask_ones n : 0 <= n <= 8 -> LSBCodec.gen1mask n = Ok (Z.ones n).
Proof.
  intros Hn. apply (range_cases (fun n => LSBCodec.gen1mask n = Ok (Z.ones n)) 0 9);
    [vm_compute; reflexivity | lia].
Qed.

Lemma gen0mask_high n : 0 <= n <= 8 -> LSBCodec.gen0mask n = Ok (Z.lxor 255 (Z.ones n)).
Proof.
  intros Hn. unfold LSBCodec.gen0mask.
  rewrite (gen1mask_ones n Hn). reflexivity.
Qed.

(** ** The pixel generator *)

Lemma with_buffer_id im : with_buffer im (buffer im) = im.
Proof. destruct im; reflexivity. Qed.

Lemma offset_c im p c : offset im p c = (offset im p 0 + c)%nat.
Proof. unfold offset. lia. Qed.

Lemma at_pixel_iter_pixels im :
  wf_image im -> at_pixel im (LSBCodec.iter_pixels im) 0.
Proof.
  intros Hwf. unfold at_pixel, wf_image in *.
  assert (Hlen : forall W H, length (flat_map (fun h => map (fun w => (h, w)) (seq 0 W)) (seq 0 H)) = (H * W)%nat).
  { intros W H. induction H as [|H IH]; [reflexivity|].
    rewrite seq_S, flat_map_app, length_app, IH. simpl.
    rewrite length_app, length_map, length_seq. simpl. lia. }
  unfold LSBCodec.iter_pixels. rewrite Hlen. split.
  2:{ rewrite Hwf. change (Z.to_nat CHAN_CNT) with 3%nat. lia. }
  generalize (shape_h im) as H. intros H.
  induction H as [|H IH]; [reflexivity|].
  rewrite seq_S, flat_map_app, map_app, IH.
  replace (S H * shape_w im)%nat with (H * shape_w im + shape_w im)%nat by lia.
  rewrite seq_app, map_app. f_equal.
  cbn [flat_map]. rewrite app_nil_r, map_map.
  replace (0 + H * shape_w im)%nat with (H * shape_w im + 0)%nat by lia.
  rewrite <- (fmap_add_seq (H * shape_w im) 0 (shape_w im)).
  change (list_fmap nat nat) with (@map nat nat). rewrite map_map.
  apply map_ext. intros w. unfold offset. cbn [fst snd].
  change (Z.to_nat CHAN_CNT) with 3%nat. lia.
Qed.

(** ** The loops of [_encode_data] and [_decode_data] *)

Lemma of_nat_S_eqb n : (Z.of_nat (S n) =? 0) = false.
Proof. apply Z.eqb_neq. lia. Qed.

Lemma of_nat_S_pred n : Z.of_nat (S n) - 1 = Z.of_nat n.
Proof. lia. Qed.

Lemma offset_with_buffer im buf p c : offset (with_buffer im buf) p c = offset im p c.
Proof. reflexivity. Qed.

Lemma with_buffer_twice im b1 b2 : with_buffer (with_buffer im b1) b2 = with_buffer im b2.
Proof. reflexivity. Qed.

Lemma at_pixel_cons im p it k :
  at_pixel im (p :: it) k ->
  offset im p 0 = (3 * k)%nat /\ at_pixel im it (S k)
  /\ (3 * k + 3 <= length (buffer im))%nat.
Proof.
  intros [Hm Hl]. cbn [map length seq] in Hm. injection Hm as Hp Hm.
  cbn [length] in Hl. repeat split; [exact Hp | exact Hm | lia | lia].
Qed.

Lemma at_pixel_with_buffer im it k buf :
  at_pixel im it k -> length buf = length (buffer im) ->
  at_pixel (with_buffer im buf) it k.
Proof. intros [Hm Hl] Hb. split; [exact Hm | cbn; lia]. Qed.

Lemma write_chunks_length m0 m1 lsb n : forall off v buf,
  length (write_chunks m0 m1 lsb n off v buf) = length buf.
Proof.
  induction n as [|n IH]; intros off v buf; [reflexivity|].
  cbn [write_chunks]. rewrite IH, length_insert. reflexivity.
Qed.

Lemma write_chunks_app m0 m1 lsb a : forall b off v buf,
  write_chunks m0 m1 lsb (a + b) off v buf =
  write_chunks m0 m1 lsb b (off + a) (Nat.iter a (fun x => Z.shiftr x lsb) v)
    (write_chunks m0 m1 lsb a off v buf).
Proof.
  induction a as [|a IH]; intros b off v buf.
  - cbn [Nat.add write_chunks Nat.iter nat_rect]. rewrite Nat.add_0_r. reflexivity.
  - cbn [Nat.add write_chunks]. rewrite IH, Nat.iter_succ_r.
    replace (S off + a)%nat with (off + S a)%nat by lia. reflexivity.
Qed.

Lemma encode_channels_zero cs p m0 m1 lsb v im :
  LSBEncoder.encode_channels cs p m0 m1 lsb v 0 im = (im, Ok (v, 0)).
Proof. destruct cs; reflexivity. Qed.

Lemma encode_channels_step c cs p m0 m1 lsb v n im :
  (offset im p c < length (buffer im))%nat ->
  LSBEncoder.encode_channels (c :: cs) p m0 m1 lsb v (Z.of_nat (S n)) im =
  LSBEncoder.encode_channels cs p m0 m1 lsb (Z.shiftr v lsb) (Z.of_nat n)
    (with_buffer im
       (<[offset im p c := merge m0 m1 (default 0 (buffer im !! offset im p c)) v]>
          (buffer im))).
Proof.
  intros Hlt. cbn [LSBEncoder.encode_channels].
  rewrite of_nat_S_eqb, of_nat_S_pred. unfold get_chan, set_chan.
  destruct (lookup_lt_is_Some_2 _ _ Hlt) as [x Hx]. rewrite Hx.
  destruct (decide _) as [_|Hn]; [reflexivity | contradiction].
Qed.

(** The channel loop over channels [c0 .. c0 + len - 1] of one pixel writes
    [min n len] chunks. *)
Lemma encode_channels_seq p m0 m1 lsb len : forall c0 v n im,
  (offset im p 0 + c0 + Nat.min n len <= length (buffer im))%nat ->
  LSBEncoder.encode_channels (seq c0 len) p m0 m1 lsb v (Z.of_nat n) im =
  (with_buffer im
     (write_chunks m0 m1 lsb (Nat.min n len) (offset im p 0 + c0) v (buffer im)),
   Ok (Nat.iter (Nat.min n len) (fun x => Z.shiftr x lsb) v,
       Z.of_nat (n - Nat.min n len))).
Proof.
  induction len as [|len IH]; intros c0 v n im Hlen.
  - rewrite Nat.min_0_r, Nat.sub_0_r. cbn [seq LSBEncoder.encode_channels write_chunks Nat.iter nat_rect].
    rewrite with_buffer_id. reflexivity.
  - destruct n as [|n].
    + cbn [Z.of_nat]. rewrite encode_channels_zero.
      cbn [Nat.min write_chunks Nat.iter nat_rect Nat.sub Z.of_nat].
      rewrite with_buffer_id. reflexivity.
    + cbn [seq]. cbn [Nat.min] in Hlen.
      rewrite encode_channels_step by (rewrite offset_c; lia).
      rewrite IH by (rewrite offset_with_buffer; cbn [with_buffer buffer];
                     rewrite length_insert; lia).
      rewrite offset_with_buffer, with_buffer_twice.
      cbn [Nat.min write_chunks Nat.sub with_buffer buffer].
      rewrite Nat.iter_succ_r, (offset_c im p c0).
      replace (offset im p 0 + S c0)%nat with (S (offset im p 0 + c0)) by lia.
      reflexivity.
Qed.

Lemma encode_while_zero it m0 m1 lsb v im :
  LSBEncoder.encode_while it m0 m1 lsb v 0 im = (State im it, Ok tt).
Proof. destruct it; reflexivity. Qed.

Lemma ceil3_small n : (1 <= n <= 3)%nat -> ceil3 n = 1%nat.
Proof.
  intros H. assert (Hn : n = 1%nat \/ n = 2%nat \/ n = 3%nat) by lia.
  destruct Hn as [-> | [-> | ->]]; reflexivity.
Qed.

Lemma ceil3_add3 n : ceil3 (3 + n) = S (ceil3 n).
Proof.
  unfold ceil3. replace (3 + n + 2)%nat with (1 * 3 + (n + 2))%nat by lia.
  rewrite Nat.div_add_l by lia. lia.
Qed.

Lemma ceil3_pos n : (0 < n)%nat -> (0 < ceil3 n)%nat.
Proof.
  intros H. unfold ceil3. apply Nat.div_str_pos. lia.
Qed.

Lemma ceil3_bounds n : (n <= 3 * ceil3 n < n + 3)%nat.
Proof.
  unfold ceil3. pose proof (Nat.div_mod_eq (n + 2) 3).
  pose proof (Nat.mod_upper_bound (n + 2) 3). lia.
Qed.

(** [_encode_data]'s loop started at pixel [k] with [n] chunks to write:
    it needs [ceil3 n] pixels; with fewer left it fills what is left and
    raises [StopIteration]. *)
Lemma encode_while_spec m0 m1 lsb it :
  forall k n v im,
    at_pixel im it k ->
    LSBEncoder.encode_while it m0 m1 lsb v (Z.of_nat n) im =
    if decide (ceil3 n <= length it)%nat
    then (State (with_buffer im (write_chunks m0 m1 lsb n (3 * k) v (buffer im)))
                (drop (ceil3 n) it), Ok tt)
    else (State (with_buffer im
                   (write_chunks m0 m1 lsb (3 * length it) (3 * k) v (buffer im)))
                [], Raise StopIteration).
Proof.
  induction it as [|p it IH]; intros k n v im Hat.
  - destruct n as [|n].
    + cbn [Z.of_nat]. rewrite encode_while_zero.
      destruct (decide _) as [_|Hn]; [|cbn in Hn; lia].
      cbn [write_chunks drop]. rewrite with_buffer_id, drop_nil. reflexivity.
    + cbn [LSBEncoder.encode_while]. rewrite of_nat_S_eqb.
      pose proof (ceil3_pos (S n) ltac:(lia)).
      destruct (decide _) as [Hle|_]; [cbn [length] in Hle; lia|].
      cbn [length]. rewrite Nat.mul_0_r. cbn [write_chunks].
      rewrite with_buffer_id. reflexivity.
  - destruct (at_pixel_cons _ _ _ _ Hat) as (Hp & Hat' & Hlen).
    destruct n as [|n].
    + cbn [Z.of_nat]. rewrite encode_while_zero.
      destruct (decide _) as [_|Hn]; [|cbn in Hn; lia].
      cbn [write_chunks]. rewrite with_buffer_id. reflexivity.
    + cbn [LSBEncoder.encode_while]. rewrite of_nat_S_eqb.
      change (range CHAN_CNT) with (seq 0 3).
      rewrite encode_channels_seq by (rewrite Hp; lia).
      rewrite Hp, Nat.add_0_r.
      destruct (le_lt_dec 3 (S n)) as [Hge|Hlt].
      * assert (Hm : exists m, S n = (3 + m)%nat) by (exists (S n - 3)%nat; lia).
        destruct Hm as [m Hm]. rewrite Hm. clear Hm Hge.
        rewrite Nat.min_r by lia.
        replace (3 + m - 3)%nat with m by lia.
        rewrite IH with (k := S k)
          by (apply at_pixel_with_buffer;
              [exact Hat' | apply write_chunks_length]).
        rewrite with_buffer_twice. cbn [with_buffer buffer].
        rewrite ceil3_add3, write_chunks_app.
        replace (3 * length (p :: it))%nat with (3 + 3 * length it)%nat
          by (cbn [length]; lia).
        rewrite (write_chunks_app _ _ _ 3 (3 * length it)).
        replace (3 * S k)%nat with (3 * k + 3)%nat by lia.
        destruct (decide (ceil3 m <= length it)%nat) as [H1|H1];
          destruct (decide (S (ceil3 m) <= length (p :: it))%nat) as [H2|H2];
          cbn [length] in H2; try lia; reflexivity.
      * rewrite Nat.min_l by lia. rewrite Nat.sub_diag. cbn [Z.of_nat].
        rewrite encode_while_zero, ceil3_small by lia.
        destruct (decide _) as [_|Hn]; [|cbn [length] in Hn; lia].
        reflexivity.
Qed.

Lemma read_chunks_app m1 lsb buf a : forall b off pos acc,
  read_chunks m1 lsb (a + b) off pos acc buf =
  read_chunks m1 lsb b (off + a) (pos + Z.of_nat a)
    (read_chunks m1 lsb a off pos acc buf) buf.
Proof.
  induction a as [|a IH]; intros b off pos acc.
  - cbn [Nat.add read_chunks Z.of_nat]. rewrite Nat.add_0_r, Z.add_0_r. reflexivity.
  - cbn [Nat.add read_chunks]. rewrite IH.
    replace (S off + a)%nat with (off + S a)%nat by lia.
    replace (pos + 1 + Z.of_nat a) with (pos + Z.of_nat (S a)) by lia.
    reflexivity.
Qed.

Lemma decode_channels_zero cs im p m1 lsb acc pos :
  LSBDecoder.decode_channels cs im p m1 lsb acc pos 0 = Ok (acc, pos, 0).
Proof. destruct cs; reflexivity. Qed.

Lemma decode_channels_step c cs im p m1 lsb acc pos n :
  (offset im p c < length (buffer im))%nat ->
  LSBDecoder.decode_channels (c :: cs) im p m1 lsb acc pos (Z.of_nat (S n)) =
  LSBDecoder.decode_channels cs im p m1 lsb
    (Z.lor acc (Z.shiftl (Z.land (default 0 (buffer im !! offset im p c)) m1) (pos * lsb)))
    (pos + 1) (Z.of_nat n).
Proof.
  intros Hlt. cbn [LSBDecoder.decode_channels].
  rewrite of_nat_S_eqb, of_nat_S_pred. unfold get_chan.
  destruct (lookup_lt_is_Some_2 _ _ Hlt) as [x Hx]. rewrite Hx. reflexivity.
Qed.

Lemma decode_channels_seq im p m1 lsb len : forall c0 acc pos n,
  (offset im p 0 + c0 + Nat.min n len <= length (buffer im))%nat ->
  LSBDecoder.decode_channels (seq c0 len) im p m1 lsb acc pos (Z.of_nat n) =
  Ok (read_chunks m1 lsb (Nat.min n len) (offset im p 0 + c0) pos acc (buffer im),
      pos + Z.of_nat (Nat.min n len), Z.of_nat (n - Nat.min n len)).
Proof.
  induction len as [|len IH]; intros c0 acc pos n Hlen.
  - rewrite Nat.min_0_r, Nat.sub_0_r, Z.add_0_r. reflexivity.
  - destruct n as [|n].
    + cbn [Z.of_nat]. rewrite decode_channels_zero.
      cbn [Nat.min read_chunks Nat.sub Z.of_nat]. rewrite Z.add_0_r. reflexivity.
    + cbn [seq]. cbn [Nat.min] in Hlen.
      rewrite decode_channels_step by (rewrite offset_c; lia).
      rewrite IH by lia.
      cbn [Nat.min read_chunks Nat.sub]. rewrite (offset_c im p c0).
      replace (offset im p 0 + S c0)%nat with (S (offset im p 0 + c0)) by lia.
      replace (pos + 1 + Z.of_nat (Nat.min n len))
        with (pos + Z.of_nat (S (Nat.min n len))) by lia.
      reflexivity.
Qed.

Lemma decode_while_zero it im m1 lsb acc pos :
  LSBDecoder.decode_while it im m1 lsb acc pos 0 = (State im it, Ok acc).
Proof. destruct it; reflexivity. Qed.

(** [_decode_data]'s loop started at pixel [k] with [n] chunks to read. *)
Lemma decode_while_spec m1 lsb im it :
  forall k n acc pos,
    at_pixel im it k ->
    LSBDecoder.decode_while it im m1 lsb acc pos (Z.of_nat n) =
    if decide (ceil3 n <= length it)%nat
    then (State im (drop (ceil3 n) it),
          Ok (read_chunks m1 lsb n (3 * k) pos acc (buffer im)))
    else (State im [], Raise StopIteration).
Proof.
  induction it as [|p it IH]; intros k n acc pos Hat.
  - destruct n as [|n].
    + cbn [Z.of_nat]. rewrite decode_while_zero.
      destruct (decide _) as [_|Hn]; [|cbn in Hn; lia].
      rewrite drop_nil. reflexivity.
    + cbn [LSBDecoder.decode_while]. rewrite of_nat_S_eqb.
      pose proof (ceil3_pos (S n) ltac:(lia)).
      destruct (decide _) as [Hle|_]; [cbn [length] in Hle; lia|]. reflexivity.
  - destruct (at_pixel_cons _ _ _ _ Hat) as (Hp & Hat' & Hlen).
    destruct n as [|n].
    + cbn [Z.of_nat]. rewrite decode_while_zero.
      destruct (decide _) as [_|Hn]; [|cbn in Hn; lia]. reflexivity.
    + cbn [LSBDecoder.decode_while]. rewrite of_nat_S_eqb.
      change (range CHAN_CNT) with (seq 0 3).
      rewrite decode_channels_seq by (rewrite Hp; lia).
      rewrite Hp, Nat.add_0_r.
      destruct (le_lt_dec 3 (S n)) as [Hge|Hlt].
      * assert (Hm : exists m, S n = (3 + m)%nat) by (exists (S n - 3)%nat; lia).
        destruct Hm as [m Hm]. rewrite Hm. clear Hm Hge.
        rewrite Nat.min_r by lia.
        replace (3 + m - 3)%nat with m by lia.
        rewrite IH with (k := S k) by exact Hat'.
        rewrite ceil3_add3, read_chunks_app.
        replace (3 * S k)%nat with (3 * k + 3)%nat by lia.
        destruct (decide (ceil3 m <= length it)%nat) as [H1|H1];
          destruct (decide (S (ceil3 m) <= length (p :: it))%nat) as [H2|H2];
          cbn [length] in H2; try lia; reflexivity.
      * rewrite Nat.min_l by lia. rewrite Nat.sub_diag. cbn [Z.of_nat].
        rewrite decode_while_zero, ceil3_small by lia.
        destruct (decide _) as [_|Hn]; [|cbn [length] in Hn; lia].
        reflexivity.
Qed.

(** ** Reading back what was written *)

Ltac bool_cases :=
  repeat match goal with
         | |- context [?a <? ?b] => destruct (Z.ltb_spec a b)
         | |- context [?a <=? ?b] => destruct (Z.leb_spec a b)
         end.

(** The low [a] bits of [v], joined with the next [b] bits placed above
    them, are the low [a + b] bits of [v]. *)
Lemma chunk_join v a b s :
  0 <= a -> 0 <= b -> 0 <= s ->
  Z.lor (Z.shiftl (Z.land v (Z.ones a)) s)
        (Z.shiftl (Z.land (Z.shiftr v a) (Z.ones b)) (s + a))
  = Z.shiftl (Z.land v (Z.ones (a + b))) s.
Proof.
  intros Ha Hb Hs. apply Z.bits_inj'. intros i Hi.
  rewrite Z.lor_spec, !Z.shiftl_spec, !Z.land_spec by lia.
  rewrite !Z.testbit_ones by lia.
  destruct (Z.lt_ge_cases (i - s) 0) as [Hneg|Hpos].
  - rewrite (Z.testbit_neg_r v (i - s)) by lia.
    rewrite (Z.testbit_neg_r _ (i - (s + a))) by lia. reflexivity.
  - destruct (Z.lt_ge_cases (i - (s + a)) 0) as [Hlo|Hhi].
    + rewrite (Z.testbit_neg_r _ (i - (s + a))) by lia.
      bool_cases; try lia; cbn; rewrite ?andb_true_r, ?orb_false_r; reflexivity.
    + rewrite Z.shiftr_spec by lia.
      replace (i - (s + a) + a) with (i - s) by lia.
      bool_cases; try lia; cbn; rewrite ?andb_true_r, ?andb_false_r; reflexivity.
Qed.

Lemma merge_low lsb old v :
  0 <= lsb <= 8 ->
  Z.land (merge (Z.lxor 255 (Z.ones lsb)) (Z.ones lsb) old v) (Z.ones lsb)
  = Z.land v (Z.ones lsb).
Proof.
  intros Hl. unfold merge. apply Z.bits_inj'. intros i Hi.
  rewrite !Z.land_spec, Z.lor_spec, !Z.land_spec, Z.lxor_spec.
  change 255 with (Z.ones 8). rewrite !Z.testbit_ones by lia.
  bool_cases; try lia; cbn;
    rewrite ?andb_true_r, ?andb_false_r, ?orb_false_r; reflexivity.
Qed.

(** An 8-bit channel stays an 8-bit channel. *)
Lemma merge_range lsb old v :
  0 <= lsb <= 8 -> 0 <= old < 256 ->
  0 <= merge (Z.lxor 255 (Z.ones lsb)) (Z.ones lsb) old v < 256.
Proof.
  intros Hl Ho. unfold merge.
  assert (Hb : forall x, (forall i, 8 <= i -> Z.testbit x i = false) -> 0 <= x < 256).
  { intros x Hx. assert (H0 : 0 <= x).
    { destruct (Z.lt_ge_cases x 0) as [Hn|]; [|assumption].
      destruct (Z.bits_iff_neg_ex x) as [Hex _]. destruct (Hex Hn) as [k Hk].
      specialize (Hk (Z.max (k + 1) 8) ltac:(lia)).
      rewrite Hx in Hk by lia. discriminate. }
    split; [exact H0|]. destruct (Z.eq_dec x 0) as [->|Hne]; [lia|].
    change 256 with (2 ^ 8). apply Z.log2_lt_pow2; [lia|].
    destruct (Z.lt_ge_cases (Z.log2 x) 8) as [|Hge]; [assumption|].
    pose proof (Z.bit_log2 x ltac:(lia)) as Hbit. rewrite Hx in Hbit by lia.
    discriminate. }
  apply Hb. intros i Hi.
  rewrite Z.lor_spec, !Z.land_spec, Z.lxor_spec.
  change 255 with (Z.ones 8). rewrite !Z.testbit_ones by lia.
  bool_cases; try lia; cbn;
    rewrite ?andb_true_r, ?andb_false_r, ?orb_false_r; reflexivity.
Qed.

Lemma lookup_write_chunks_lt m0 m1 lsb n : forall off v buf i,
  (i < off)%nat -> write_chunks m0 m1 lsb n off v buf !! i = buf !! i.
Proof.
  induction n as [|n IH]; intros off v buf i Hi; [reflexivity|].
  cbn [write_chunks]. rewrite IH by lia. apply list_lookup_insert_ne. lia.
Qed.

Lemma lookup_write_chunks_ge m0 m1 lsb n : forall off v buf i,
  (off + n <= i)%nat -> write_chunks m0 m1 lsb n off v buf !! i = buf !! i.
Proof.
  induction n as [|n IH]; intros off v buf i Hi; [reflexivity|].
  cbn [write_chunks]. rewrite IH by lia. apply list_lookup_insert_ne. lia.
Qed.

Lemma read_chunks_ext m1 lsb n : forall off pos acc b1 b2,
  (forall i, (off <= i < off + n)%nat -> b1 !! i = b2 !! i) ->
  read_chunks m1 lsb n off pos acc b1 = read_chunks m1 lsb n off pos acc b2.
Proof.
  induction n as [|n IH]; intros off pos acc b1 b2 H; [reflexivity|].
  cbn [read_chunks]. rewrite (H off) by lia. apply IH.
  intros i Hi. apply H. lia.
Qed.

(** Reading [n] chunks where [n] chunks of [v] were written gives back the
    low [n * lsb] bits of [v]. *)
Lemma read_write_chunks lsb n : forall off pos acc v buf,
  0 <= lsb <= 8 -> 0 <= pos -> (off + n <= length buf)%nat ->
  read_chunks (Z.ones lsb) lsb n off pos acc
    (write_chunks (Z.lxor 255 (Z.ones lsb)) (Z.ones lsb) lsb n off v buf)
  = Z.lor acc (Z.shiftl (Z.land v (Z.ones (Z.of_nat n * lsb))) (pos * lsb)).
Proof.
  induction n as [|n IH]; intros off pos acc v buf Hl Hp Hlen.
  - cbn [read_chunks write_chunks Z.of_nat]. rewrite Z.mul_0_l.
    change (Z.ones 0) with 0. rewrite Z.land_0_r, Z.shiftl_0_l, Z.lor_0_r. reflexivity.
  - cbn [read_chunks write_chunks].
    rewrite lookup_write_chunks_lt by lia.
    rewrite list_lookup_insert_eq by lia.
    change (default 0 (Some ?x)) with x.
    rewrite merge_low by exact Hl.
    rewrite IH by (rewrite ?length_insert; lia).
    rewrite <- Z.lor_assoc. f_equal.
    replace ((pos + 1) * lsb) with (pos * lsb + lsb) by lia.
    rewrite chunk_join by nia. f_equal. f_equal. f_equal. lia.
Qed.

(** ** Bytes to integer and back, through hexadecimal text *)

Lemma hex_val_char n : 0 <= n < 16 -> hex_val (hex_char n) = Some n.
Proof.
  apply (range_cases (fun n => hex_val (hex_char n) = Some n) 0 16).
  vm_compute. reflexivity.
Qed.

Lemma hex_char_not_sign n :
  0 <= n < 16 ->
  (Ascii.eqb (hex_char n) "-" || Ascii.eqb (hex_char n) "+")%bool = false.
Proof.
  apply (range_cases
           (fun n => (Ascii.eqb (hex_char n) "-" || Ascii.eqb (hex_char n) "+")%bool = false)
           0 16).
  vm_compute. reflexivity.
Qed.

Lemma be_int_fold b : forall a,
  fold_left (fun a x => a * 256 + byte_to_Z x) b a
  = a * 256 ^ Z.of_nat (length b) + be_int b.
Proof.
  unfold be_int. induction b as [|x b IH]; intros a.
  - cbn. lia.
  - cbn [fold_left length]. rewrite IH, (IH (0 * 256 + byte_to_Z x)).
    rewrite Nat2Z.inj_succ, Z.pow_succ_r by lia. ring.
Qed.

Lemma be_int_cons x b :
  be_int (x :: b) = byte_to_Z x * 256 ^ Z.of_nat (length b) + be_int b.
Proof.
  unfold be_int at 1. cbn [fold_left]. rewrite be_int_fold. ring.
Qed.

Lemma be_int_range b : 0 <= be_int b < 256 ^ Z.of_nat (length b).
Proof.
  induction b as [|x b IH].
  - cbn. lia.
  - rewrite be_int_cons. cbn [length]. rewrite Nat2Z.inj_succ, Z.pow_succ_r by lia.
    pose proof (byte_to_Z_range x). nia.
Qed.

Lemma int16_step_char a n :
  0 <= n < 16 -> int16_step (Ok a) (hex_char n) = Ok (a * 16 + n).
Proof. intros H. unfold int16_step. cbn. rewrite hex_val_char by exact H. reflexivity. Qed.

Lemma int16_hexlify b : forall a,
  fold_left int16_step (hexlify b) (Ok a)
  = Ok (fold_left (fun a x => a * 256 + byte_to_Z x) b a).
Proof.
  induction b as [|x b IH]; intros a; [reflexivity|].
  unfold hexlify in *. cbn [flat_map app fold_left].
  pose proof (byte_to_Z_range x) as Hx.
  pose proof (Z.div_mod (byte_to_Z x) 16 ltac:(lia)) as Hdm.
  pose proof (Z.mod_pos_bound (byte_to_Z x) 16 ltac:(lia)) as Hm.
  rewrite !int16_step_char by lia.
  rewrite IH. do 2 f_equal. lia.
Qed.

(** [bytes_to_int] of a non-empty buffer is its big-endian value. *)
Lemma bytes_to_int_spec b : b <> [] -> LSBCodec.bytes_to_int b = Ok (be_int b).
Proof.
  intros Hb. unfold LSBCodec.bytes_to_int, int16.
  destruct b as [|x b]; [congruence|].
  rewrite int16_hexlify. reflexivity.
Qed.

Lemma bytes_to_int_nil : LSBCodec.bytes_to_int [] = Raise ValueError.
Proof. reflexivity. Qed.

Lemma nibble_range x : 0 <= Z.land x 15 < 16.
Proof.
  change 15 with (Z.ones 4). rewrite Z.land_ones by lia.
  apply Z.mod_pos_bound. lia.
Qed.

Lemma pow_256 n : 256 ^ Z.of_nat n = 2 ^ (8 * Z.of_nat n).
Proof. rewrite Z.pow_mul_r by lia. reflexivity. Qed.

Lemma hex_len_le v n :
  0 <= v < 256 ^ Z.of_nat n -> (1 <= n)%nat -> (hex_len v <= 2 * n)%nat.
Proof.
  intros Hv Hn. unfold hex_len. destruct (Z.eqb_spec v 0) as [->|Hne]; [lia|].
  rewrite pow_256 in Hv.
  assert (Hlog : Z.log2 v < 8 * Z.of_nat n) by (apply Z.log2_lt_pow2; lia).
  pose proof (Z.log2_nonneg v).
  pose proof (Z.div_mod (Z.log2 v) 4 ltac:(lia)).
  pose proof (Z.mod_pos_bound (Z.log2 v) 4 ltac:(lia)). lia.
Qed.

Lemma nibble_high v k :
  0 <= v -> (hex_len v <= k)%nat -> Z.land (Z.shiftr v (4 * Z.of_nat k)) 15 = 0.
Proof.
  intros Hv Hk. unfold hex_len in Hk.
  destruct (Z.eqb_spec v 0) as [->|Hne].
  - rewrite Z.shiftr_0_l. reflexivity.
  - rewrite Z.shiftr_eq_0; [reflexivity | lia |].
    pose proof (Z.log2_nonneg v).
    pose proof (Z.div_mod (Z.log2 v) 4 ltac:(lia)).
    pose proof (Z.mod_pos_bound (Z.log2 v) 4 ltac:(lia)). lia.
Qed.

Lemma hex_len_pos v : (1 <= hex_len v)%nat.
Proof. unfold hex_len. destruct (v =? 0); lia. Qed.

(** The zero-filled text of [v] is its [2 * n] hexadecimal digits. *)
Lemma zfill_format_x v n :
  0 <= v < 256 ^ Z.of_nat n -> (1 <= n)%nat ->
  zfill (Z.of_nat n * 2) (format_x v)
  = map (fun k => hex_char (Z.land (Z.shiftr v (4 * Z.of_nat k)) 15))
        (rev (seq 0 (2 * n))).
Proof.
  intros Hv Hn. unfold format_x.
  destruct (Z.ltb_spec v 0) as [Hneg|_]; [lia|].
  pose proof (hex_len_le v n Hv Hn) as Hle. pose proof (hex_len_pos v) as Hpos.
  unfold zfill, hex_digits.
  set (f := fun k => hex_char (Z.land (Z.shiftr v (4 * Z.of_nat k)) 15)).
  assert (Hlen : length (map f (rev (seq 0 (hex_len v)))) = hex_len v)
    by (rewrite length_map, length_rev, length_seq; reflexivity).
  rewrite Hlen.
  replace (Z.to_nat (Z.of_nat n * 2) - hex_len v)%nat with (2 * n - hex_len v)%nat by lia.
  assert (Hpad : repeat "0"%char (2 * n - hex_len v)
                 = map f (rev (seq (hex_len v) (2 * n - hex_len v)))).
  { generalize (2 * n - hex_len v)%nat as m. intros m.
    induction m as [|m IH]; [reflexivity|].
    rewrite seq_S, rev_app_distr. cbn [rev app map].
    rewrite <- IH. cbn [repeat]. f_equal.
    unfold f. rewrite nibble_high by lia. reflexivity. }
  assert (Hall : map f (rev (seq 0 (2 * n)))
                 = repeat "0"%char (2 * n - hex_len v) ++ map f (rev (seq 0 (hex_len v)))).
  { rewrite Hpad, <- map_app, <- rev_app_distr, <- seq_app.
    replace (hex_len v + (2 * n - hex_len v))%nat with (2 * n)%nat by lia. reflexivity. }
  rewrite Hall.
  destruct (hex_len v) as [|l] eqn:El; [lia|].
  rewrite seq_S, rev_app_distr. cbn [rev app map].
  unfold f at 1. rewrite hex_char_not_sign by apply nibble_range. reflexivity.
Qed.

Lemma byte_of_nibbles x :
  Z.land (Z.shiftr x 4) 15 * 16 + Z.land x 15 = Z.land x 255.
Proof.
  change 15 with (Z.ones 4). change 255 with (Z.ones 8).
  rewrite !Z.land_ones, Z.shiftr_div_pow2 by lia.
  change (2 ^ 4) with 16. change (2 ^ 8) with 256.
  pose proof (Z.div_mod x 16 ltac:(lia)).
  pose proof (Z.mod_pos_bound x 16 ltac:(lia)).
  pose proof (Z.div_mod (x / 16) 16 ltac:(lia)).
  pose proof (Z.mod_pos_bound (x / 16) 16 ltac:(lia)).
  pose proof (Z.div_mod x 256 ltac:(lia)).
  pose proof (Z.mod_pos_bound x 256 ltac:(lia)). lia.
Qed.

Lemma unhexlify_digits v n :
  unhexlify (map (fun k => hex_char (Z.land (Z.shiftr v (4 * Z.of_nat k)) 15))
                 (rev (seq 0 (2 * n))))
  = Ok (be_bytes n v).
Proof.
  unfold be_bytes. induction n as [|n IH]; [reflexivity|].
  replace (2 * S n)%nat with (S (S (2 * n))) by lia.
  rewrite (seq_S (S (2 * n))), (seq_S (2 * n)), (seq_S n), !rev_app_distr.
  cbn [rev app map unhexlify Nat.add].
  rewrite !hex_val_char by apply nibble_range.
  rewrite IH. cbn [mbind result_bind]. do 3 f_equal.
  replace (4 * Z.of_nat (S (2 * n))) with (8 * Z.of_nat n + 4) by lia.
  replace (4 * Z.of_nat (2 * n)) with (8 * Z.of_nat n) by lia.
  rewrite <- Z.shiftr_shiftr by lia. apply byte_of_nibbles.
Qed.

(** [int_to_bytes] of a value that fits [n >= 1] bytes is its [n]
    big-endian bytes. *)
Lemma int_to_bytes_spec v n :
  0 <= v < 256 ^ Z.of_nat n -> (1 <= n)%nat ->
  LSBCodec.int_to_bytes v (Z.of_nat n) = Ok (be_bytes n v).
Proof.
  intros Hv Hn. unfold LSBCodec.int_to_bytes.
  rewrite zfill_format_x by assumption. apply unhexlify_digits.
Qed.

Lemma be_bytes_length n v : length (be_bytes n v) = n.
Proof. unfold be_bytes. rewrite length_map, length_rev, length_seq. reflexivity. Qed.

Lemma be_bytes_add n a v :
  be_bytes n (a * 256 ^ Z.of_nat n + v) = be_bytes n v.
Proof.
  unfold be_bytes. apply map_ext_in. intros j Hj.
  apply in_rev, in_seq in Hj. f_equal.
  apply Z.bits_inj'. intros i Hi.
  rewrite !Z.land_spec, !Z.shiftr_spec by lia.
  change 255 with (Z.ones 8). rewrite Z.testbit_ones by lia.
  destruct (Z.ltb_spec i 8) as [Hlt|Hge];
    [|rewrite !andb_false_r; reflexivity].
  f_equal.
  rewrite <- (Z.mod_pow2_bits_low (a * 256 ^ Z.of_nat n + v) (8 * Z.of_nat n)) by lia.
  rewrite <- (Z.mod_pow2_bits_low v (8 * Z.of_nat n)) by lia.
  f_equal. rewrite pow_256, Z.add_comm, Z.mod_add by (apply Z.pow_nonzero; lia).
  reflexivity.
Qed.

Lemma be_bytes_be_int b : be_bytes (length b) (be_int b) = b.
Proof.
  induction b as [|x b IH]; [reflexivity|].
  rewrite be_int_cons. cbn [length].
  unfold be_bytes. rewrite seq_S, rev_app_distr. cbn [rev app map Nat.add].
  f_equal.
  - rewrite Z.shiftr_div_pow2, <- pow_256 by lia.
    pose proof (be_int_range b) as Hb. pose proof (byte_to_Z_range x) as Hx.
    rewrite Z.div_add_l by lia. rewrite Z.div_small by lia. rewrite Z.add_0_r.
    change 255 with (Z.ones 8). rewrite Z.land_ones by lia.
    rewrite Z.mod_small by (change (2 ^ 8) with 256; lia). apply byte_of_to_Z.
  - fold (be_bytes (length b) (byte_to_Z x * 256 ^ Z.of_nat (length b) + be_int b)).
    rewrite be_bytes_add. exact IH.
Qed.

(** [int_to_bytes] undoes [bytes_to_int] on a non-empty buffer. *)
Lemma int_to_bytes_be_int b :
  b <> [] -> LSBCodec.int_to_bytes (be_int b) (Z.of_nat (length b)) = Ok b.
Proof.
  intros Hb. rewrite int_to_bytes_spec.
  - rewrite be_bytes_be_int. reflexivity.
  - apply be_int_range.
  - destruct b; [congruence | cbn; lia].
Qed.

(** ** The helpers on the codec state *)

Lemma M_bind_eq {A B} (m : M A) (f : A -> M B) st st' r :
  m st = (st', r) ->
  (m ≫= f) st = match r with Ok a => f a st' | Raise e => (st', Raise e) end.
Proof. intros H. unfold mbind, M_bind. rewrite H. destruct r; reflexivity. Qed.

Lemma M_bind_lift {A B} (r : result A) (f : A -> M B) st :
  (lift r ≫= f) st = match r with Ok a => f a st | Raise e => (st, Raise e) end.
Proof. apply M_bind_eq. reflexivity. Qed.

Lemma M_bind_ext {A B} (m : M A) (f g : A -> M B) st :
  (forall a st', f a st' = g a st') -> (m ≫= f) st = (m ≫= g) st.
Proof.
  intros H. unfold mbind, M_bind. destruct (m st) as [st' [a|e]]; [apply H | reflexivity].
Qed.

Lemma at_pixel_drop j : forall im it k,
  at_pixel im it k -> (j <= length it)%nat -> at_pixel im (drop j it) (k + j).
Proof.
  induction j as [|j IH]; intros im it k Hat Hj.
  - rewrite drop_0, Nat.add_0_r. exact Hat.
  - destruct it as [|p it]; [cbn in Hj; lia|].
    destruct (at_pixel_cons _ _ _ _ Hat) as (_ & Hat' & _).
    cbn [drop]. replace (k + S j)%nat with (S k + j)%nat by lia.
    apply IH; [exact Hat' | cbn in Hj; lia].
Qed.

Lemma at_pixel_length im it k :
  wf_image im -> at_pixel im it k -> (k + length it = shape_h im * shape_w im)%nat.
Proof.
  intros Hwf [_ Hl]. unfold wf_image in Hwf.
  change (Z.to_nat CHAN_CNT) with 3%nat in Hwf. lia.
Qed.

Lemma wf_with_buffer im buf :
  wf_image im -> length buf = length (buffer im) -> wf_image (with_buffer im buf).
Proof. unfold wf_image. cbn. lia. Qed.

Lemma encode_data_spec v n lsb st k :
  0 <= lsb <= 8 -> at_pixel (img st) (piter st) k ->
  LSBEncoder._encode_data v (Z.of_nat n) lsb st =
  if decide (ceil3 n <= length (piter st))%nat
  then (State (with_buffer (img st)
                 (write_chunks (mask0 lsb) (mask1 lsb) lsb n (3 * k) v (buffer (img st))))
              (drop (ceil3 n) (piter st)), Ok tt)
  else (State (with_buffer (img st)
                 (write_chunks (mask0 lsb) (mask1 lsb) lsb (3 * length (piter st))
                    (3 * k) v (buffer (img st))))
              [], Raise StopIteration).
Proof.
  intros Hl Hat. unfold LSBEncoder._encode_data.
  rewrite M_bind_lift, gen0mask_high, M_bind_lift, gen1mask_ones by exact Hl.
  unfold LSBEncoder.encode_loop. apply encode_while_spec. exact Hat.
Qed.

Lemma decode_data_spec n lsb st k :
  0 <= lsb <= 8 -> at_pixel (img st) (piter st) k ->
  LSBDecoder._decode_data (Z.of_nat n) lsb st =
  if decide (ceil3 n <= length (piter st))%nat
  then (State (img st) (drop (ceil3 n) (piter st)),
        Ok (read_chunks (mask1 lsb) lsb n (3 * k) 0 0 (buffer (img st))))
  else (State (img st) [], Raise StopIteration).
Proof.
  intros Hl Hat. unfold LSBDecoder._decode_data.
  rewrite M_bind_lift, gen0mask_high, M_bind_lift, gen1mask_ones by exact Hl.
  unfold LSBDecoder.decode_loop. apply decode_while_spec. exact Hat.
Qed.

(** ** [encode], case by case *)

Lemma lsb_check_ok lsb : 1 <= lsb <= 8 -> lsb_check lsb = Ok lsb.
Proof.
  intros H. unfold lsb_check, CHAN_SIZE.
  destruct (Z.gtb_spec lsb 8); [lia|]. destruct (Z.leb_spec lsb 0); [lia|]. reflexivity.
Qed.

Lemma lsb_check_bad lsb : ~ 1 <= lsb <= 8 -> lsb_check lsb = Raise InvalidLSB.
Proof.
  intros H. unfold lsb_check, CHAN_SIZE.
  destruct (Z.gtb_spec lsb 8); [reflexivity|].
  destruct (Z.leb_spec lsb 0); [reflexivity|lia].
Qed.

Lemma chan_per_byte_pos lsb : 1 <= lsb <= 8 -> 1 <= CHAN_SIZE / lsb.
Proof.
  intros H. unfold CHAN_SIZE. apply Z.div_le_lower_bound; lia.
Qed.

Lemma available_spec im lsb :
  1 <= lsb <= 8 -> LSBCodec.available im lsb = Ok (available_value im lsb).
Proof.
  intros H. unfold LSBCodec.available, available_value, floordiv.
  destruct (Z.eqb_spec lsb 0); [lia|]. cbn [mbind result_bind].
  pose proof (chan_per_byte_pos lsb H).
  destruct (Z.eqb_spec (CHAN_SIZE / lsb) 0); [lia|]. reflexivity.
Qed.

Lemma floordiv_chunks a lsb :
  1 <= lsb <= 8 -> 0 <= a -> floordiv a lsb = Ok (Z.of_nat (Z.to_nat (a / lsb))).
Proof.
  intros H Ha. unfold floordiv. destruct (Z.eqb_spec lsb 0); [lia|].
  rewrite Z2Nat.id by (apply Z.div_pos; lia). reflexivity.
Qed.

Lemma encode_run im data lsb xor_key :
  1 <= lsb <= 8 ->
  LSBEncoder.encode im data lsb xor_key =
  if Z.of_nat (length data) >? available_value im lsb then (im, Raise TooMuchData)
  else
    match LSBCodec.bytes_to_int (keyed data xor_key) with
    | Raise e => (im, Raise e)
    | Ok v =>
        let r := encode_fields lsb (prolog_of lsb xor_key) (length data) v
                   (State im (LSBCodec.iter_pixels im)) in
        (img r.1, r.2)
    end.
Proof.
  intros Hl. unfold LSBEncoder.encode, LSBEncoder.encode_m.
  rewrite M_bind_lift, lsb_check_ok by exact Hl.
  destruct (Z.eqb_spec lsb 0); [lia|].
  rewrite (M_bind_eq new_piter _ _ _ (Ok tt) eq_refl).
  rewrite (M_bind_eq get_img _ _ _ (Ok _) eq_refl).
  cbn [img]. rewrite M_bind_lift, available_spec by exact Hl.
  destruct (Z.of_nat (length data) >? available_value im lsb); [reflexivity|].
  rewrite M_bind_lift. fold (keyed data xor_key).
  destruct (LSBCodec.bytes_to_int (keyed data xor_key)) as [v|e]; [|reflexivity].
  fold (prolog_of lsb xor_key). cbv zeta.
  match goal with
  | |- (img (?x).1, (?x).2) = (img (?y).1, (?y).2) => assert (Heq : x = y)
  end.
  { unfold encode_fields. apply M_bind_ext. intros [] st1.
    rewrite M_bind_lift, (floordiv_chunks _ lsb Hl) by (unfold LEN_SIZE, CHAN_SIZE; lia).
    fold (len_chunks lsb). apply M_bind_ext. intros [] st2.
    rewrite M_bind_lift, (floordiv_chunks _ lsb Hl) by (unfold CHAN_SIZE; lia).
    reflexivity. }
  rewrite Heq. reflexivity.
Qed.

Lemma encode_data_ok v n lsb st k :
  0 <= lsb <= 8 -> at_pixel (img st) (piter st) k ->
  (ceil3 n <= length (piter st))%nat ->
  LSBEncoder._encode_data v (Z.of_nat n) lsb st =
  (State (with_buffer (img st)
            (write_chunks (mask0 lsb) (mask1 lsb) lsb n (3 * k) v (buffer (img st))))
         (drop (ceil3 n) (piter st)), Ok tt).
Proof.
  intros Hl Hat Hle. rewrite (encode_data_spec v n lsb st k Hl Hat).
  destruct (decide _); [reflexivity | contradiction].
Qed.

Lemma encode_data_stop v n lsb st k :
  0 <= lsb <= 8 -> at_pixel (img st) (piter st) k ->
  (length (piter st) < ceil3 n)%nat ->
  LSBEncoder._encode_data v (Z.of_nat n) lsb st =
  (State (with_buffer (img st)
            (write_chunks (mask0 lsb) (mask1 lsb) lsb (3 * length (piter st))
               (3 * k) v (buffer (img st))))
         [], Raise StopIteration).
Proof.
  intros Hl Hat Hlt. rewrite (encode_data_spec v n lsb st k Hl Hat).
  destruct (decide _); [lia | reflexivity].
Qed.

Lemma iter_pixels_length im :
  wf_image im -> length (LSBCodec.iter_pixels im) = (shape_h im * shape_w im)%nat.
Proof.
  intros Hwf. pose proof (at_pixel_length _ _ _ Hwf (at_pixel_iter_pixels im Hwf)). lia.
Qed.

(** With enough pixels the three fields are written one after the other. *)
Lemma encode_fields_ok im lsb prolog size v :
  wf_image im -> 1 <= lsb <= 8 ->
  (pixels_needed lsb size <= shape_h im * shape_w im)%nat ->
  encode_fields lsb prolog size v (State im (LSBCodec.iter_pixels im)) =
  (State (with_buffer im (encoded_buffer lsb prolog size v (buffer im)))
         (drop (pixels_needed lsb size) (LSBCodec.iter_pixels im)), Ok tt).
Proof.
  intros Hwf Hl Hpix. unfold pixels_needed in Hpix.
  pose proof (at_pixel_iter_pixels im Hwf) as Hat0.
  pose proof (iter_pixels_length im Hwf) as Hlen0.
  unfold encode_fields. change (PROLOG_SIZE * CHAN_CNT) with (Z.of_nat 6).
  erewrite M_bind_eq
    by (apply (encode_data_ok _ 6 1 _ 0); [lia | exact Hat0 | cbn [piter]; change (ceil3 6) with 2%nat; lia]).
  cbn [img piter]. change (ceil3 6) with 2%nat.
  set (b1 := write_chunks (mask0 1) (mask1 1) 1 6 (3 * 0) prolog (buffer im)).
  assert (Hat1 : at_pixel (with_buffer im b1) (drop 2 (LSBCodec.iter_pixels im)) 2).
  { apply at_pixel_with_buffer; [|apply write_chunks_length].
    apply (at_pixel_drop 2 _ _ 0 Hat0). lia. }
  erewrite M_bind_eq
    by (apply (encode_data_ok _ _ lsb _ 2); [lia | exact Hat1 | cbn [piter]; rewrite length_drop; lia]).
  cbn [img piter buffer with_buffer shape_h shape_w].
  set (b2 := write_chunks (mask0 lsb) (mask1 lsb) lsb (len_chunks lsb) (3 * 2) (Z.of_nat size) b1).
  rewrite drop_drop.
  assert (Hat2 : at_pixel (with_buffer im b2)
                   (drop (2 + ceil3 (len_chunks lsb)) (LSBCodec.iter_pixels im))
                   (2 + ceil3 (len_chunks lsb))).
  { apply at_pixel_with_buffer;
      [|unfold b2, b1; rewrite !write_chunks_length; reflexivity].
    apply (at_pixel_drop _ _ _ 0 Hat0). lia. }
  erewrite (encode_data_ok _ _ lsb _ (2 + ceil3 (len_chunks lsb)));
    [| lia | exact Hat2 | cbn [piter]; rewrite length_drop; lia].
  cbn [img piter buffer with_buffer shape_h shape_w]. rewrite drop_drop.
  reflexivity.
Qed.

(** With too few pixels one of the three calls exhausts the generator. *)
Lemma encode_fields_stop im lsb prolog size v :
  wf_image im -> 1 <= lsb <= 8 ->
  (shape_h im * shape_w im < pixels_needed lsb size)%nat ->
  exists st', encode_fields lsb prolog size v (State im (LSBCodec.iter_pixels im)) =
              (st', Raise StopIteration).
Proof.
  intros Hwf Hl Hpix. unfold pixels_needed in Hpix.
  pose proof (at_pixel_iter_pixels im Hwf) as Hat0.
  pose proof (iter_pixels_length im Hwf) as Hlen0.
  unfold encode_fields. change (PROLOG_SIZE * CHAN_CNT) with (Z.of_nat 6).
  destruct (le_lt_dec 2 (shape_h im * shape_w im)) as [H2|H2].
  2:{ erewrite M_bind_eq
        by (apply (encode_data_stop _ 6 1 _ 0); [lia | exact Hat0 | cbn [piter]; change (ceil3 6) with 2%nat; lia]).
      eexists. reflexivity. }
  erewrite M_bind_eq
    by (apply (encode_data_ok _ 6 1 _ 0); [lia | exact Hat0 | cbn [piter]; change (ceil3 6) with 2%nat; lia]).
  cbn [img piter]. change (ceil3 6) with 2%nat.
  set (b1 := write_chunks (mask0 1) (mask1 1) 1 6 (3 * 0) prolog (buffer im)).
  assert (Hat1 : at_pixel (with_buffer im b1) (drop 2 (LSBCodec.iter_pixels im)) 2).
  { apply at_pixel_with_buffer; [|apply write_chunks_length].
    apply (at_pixel_drop 2 _ _ 0 Hat0). lia. }
  destruct (le_lt_dec (2 + ceil3 (len_chunks lsb)) (shape_h im * shape_w im)) as [H3|H3].
  2:{ erewrite M_bind_eq
        by (apply (encode_data_stop _ _ lsb _ 2); [lia | exact Hat1 | cbn [piter]; rewrite length_drop; lia]).
      eexists. reflexivity. }
  erewrite M_bind_eq
    by (apply (encode_data_ok _ _ lsb _ 2); [lia | exact Hat1 | cbn [piter]; rewrite length_drop; lia]).
  cbn [img piter buffer with_buffer shape_h shape_w].
  set (b2 := write_chunks (mask0 lsb) (mask1 lsb) lsb (len_chunks lsb) (3 * 2) (Z.of_nat size) b1).
  rewrite drop_drop.
  assert (Hat2 : at_pixel (with_buffer im b2)
                   (drop (2 + ceil3 (len_chunks lsb)) (LSBCodec.iter_pixels im))
                   (2 + ceil3 (len_chunks lsb))).
  { apply at_pixel_with_buffer;
      [|unfold b2, b1; rewrite !write_chunks_length; reflexivity].
    apply (at_pixel_drop _ _ _ 0 Hat0). lia. }
  erewrite (encode_data_stop _ _ lsb _ (2 + ceil3 (len_chunks lsb)));
    [| lia | exact Hat2 | cbn [piter]; rewrite length_drop; lia].
  eexists. reflexivity.
Qed.

(** ** [decode] on an encoded buffer *)

Lemma read_prolog lsb prolog size v buf :
  (6 <= length buf)%nat ->
  read_chunks (mask1 1) 1 6 (3 * 0) 0 0 (encoded_buffer lsb prolog size v buf)
  = Z.land prolog (Z.ones 6).
Proof.
  intros Hlen. unfold encoded_buffer.
  erewrite read_chunks_ext.
  2:{ intros i Hi. rewrite !lookup_write_chunks_lt by lia. reflexivity. }
  unfold mask0, mask1. change (3 * 0)%nat with 0%nat.
  rewrite read_write_chunks by lia. reflexivity.
Qed.

Lemma read_length lsb prolog size v buf :
  0 <= lsb <= 8 -> (6 + len_chunks lsb <= length buf)%nat ->
  read_chunks (mask1 lsb) lsb (len_chunks lsb) (3 * 2) 0 0
    (encoded_buffer lsb prolog size v buf)
  = Z.land (Z.of_nat size) (Z.ones (Z.of_nat (len_chunks lsb) * lsb)).
Proof.
  intros Hl Hlen. unfold encoded_buffer.
  pose proof (ceil3_bounds (len_chunks lsb)) as Hc.
  erewrite read_chunks_ext.
  2:{ intros i Hi. rewrite lookup_write_chunks_lt by lia. reflexivity. }
  unfold mask0, mask1. change (3 * 2)%nat with 6%nat.
  rewrite read_write_chunks by (rewrite ?write_chunks_length; lia). reflexivity.
Qed.

Lemma read_payload lsb prolog size v buf :
  0 <= lsb <= 8 ->
  (3 * (2 + ceil3 (len_chunks lsb)) + data_chunks lsb size <= length buf)%nat ->
  read_chunks (mask1 lsb) lsb (data_chunks lsb size) (3 * (2 + ceil3 (len_chunks lsb))) 0 0
    (encoded_buffer lsb prolog size v buf)
  = Z.land v (Z.ones (Z.of_nat (data_chunks lsb size) * lsb)).
Proof.
  intros Hl Hlen. unfold encoded_buffer, mask0, mask1.
  rewrite read_write_chunks by (rewrite ?write_chunks_length; lia). reflexivity.
Qed.

Lemma decode_data_ok n lsb st k :
  0 <= lsb <= 8 -> at_pixel (img st) (piter st) k ->
  (ceil3 n <= length (piter st))%nat ->
  LSBDecoder._decode_data (Z.of_nat n) lsb st =
  (State (img st) (drop (ceil3 n) (piter st)),
   Ok (read_chunks (mask1 lsb) lsb n (3 * k) 0 0 (buffer (img st)))).
Proof.
  intros Hl Hat Hle. rewrite (decode_data_spec n lsb st k Hl Hat).
  destruct (decide _); [reflexivity | contradiction].
Qed.

(** A prologue that fails the header checks makes [decode] raise
    [ValueError], whatever the key. *)
Lemma decode_bad_header im xor_key :
  wf_image im -> (2 <= shape_h im * shape_w im)%nat ->
  header_check (read_chunks (mask1 1) 1 6 (3 * 0) 0 0 (buffer im)) = Raise ValueError ->
  LSBDecoder.decode im xor_key = Raise ValueError.
Proof.
  intros Hwf Hpix Hhdr. unfold LSBDecoder.decode, LSBDecoder.decode_m.
  rewrite (M_bind_eq new_piter _ _ _ (Ok tt) eq_refl). cbn [img].
  change (LSBCodec.gen0mask CHAN_CNT) with (@Ok Z 248).
  change (LSBCodec.gen1mask CHAN_CNT) with (@Ok Z 7).
  rewrite !M_bind_lift. change (PROLOG_SIZE * CHAN_CNT) with (Z.of_nat 6).
  erewrite M_bind_eq
    by (apply (decode_data_ok 6 1 _ 0);
        [lia | apply at_pixel_iter_pixels; exact Hwf
        | cbn [piter]; rewrite iter_pixels_length by exact Hwf;
          change (ceil3 6) with 2%nat; lia]).
  cbn [img piter]. rewrite M_bind_lift.
  fold (header_check (read_chunks (mask1 1) 1 6 (3 * 0) 0 0 (buffer im))).
  rewrite Hhdr. reflexivity.
Qed.

Lemma prolog_fits lsb xor_key :
  1 <= lsb <= 7 -> Z.land (prolog_of lsb xor_key) (Z.ones 6) = prolog_of lsb xor_key.
Proof.
  intros H. destruct xor_key as [key|]; unfold prolog_of.
  - apply (range_cases (fun w => Z.land (Z.lor LSBCodec.XOR_Y w) (Z.ones 6)
                                 = Z.lor LSBCodec.XOR_Y w) 1 7);
      [vm_compute; reflexivity | lia].
  - apply (range_cases (fun w => Z.land (Z.lor LSBCodec.XOR_N w) (Z.ones 6)
                                 = Z.lor LSBCodec.XOR_N w) 1 7);
      [vm_compute; reflexivity | lia].
Qed.

Lemma prolog_flag lsb xor_key :
  1 <= lsb <= 7 ->
  Z.land (prolog_of lsb xor_key) 248
  = if xor_key is None then LSBCodec.XOR_N else LSBCodec.XOR_Y.
Proof.
  intros H. destruct xor_key as [key|]; unfold prolog_of.
  - apply (range_cases (fun w => Z.land (Z.lor LSBCodec.XOR_Y w) 248 = LSBCodec.XOR_Y) 1 7);
      [vm_compute; reflexivity | lia].
  - apply (range_cases (fun w => Z.land (Z.lor LSBCodec.XOR_N w) 248 = LSBCodec.XOR_N) 1 7);
      [vm_compute; reflexivity | lia].
Qed.

Lemma prolog_width lsb xor_key :
  1 <= lsb <= 7 -> Z.land (prolog_of lsb xor_key) 7 = lsb.
Proof.
  intros H. destruct xor_key as [key|]; unfold prolog_of.
  - apply (range_cases (fun w => Z.land (Z.lor LSBCodec.XOR_Y w) 7 = w) 1 7);
      [vm_compute; reflexivity | lia].
  - apply (range_cases (fun w => Z.land (Z.lor LSBCodec.XOR_N w) 7 = w) 1 7);
      [vm_compute; reflexivity | lia].
Qed.

Lemma header_check_ok lsb xor_key :
  1 <= lsb <= 7 -> header_check (prolog_of lsb xor_key) = Ok lsb.
Proof.
  intros H. unfold header_check.
  rewrite prolog_flag, prolog_width by exact H.
  rewrite lsb_check_ok by lia. destruct xor_key; reflexivity.
Qed.

(** At bit width 8 the prologue that [encode] writes never passes the
    header checks: without a key the flag field reads [0b001], with a key
    the width field reads [0]. *)
Lemma header_check_width8 xor_key :
  header_check (Z.land (prolog_of 8 xor_key) (Z.ones 6)) = Raise ValueError.
Proof. destruct xor_key; reflexivity. Qed.

Lemma land_ones_small v n : 0 <= n -> 0 <= v < 2 ^ n -> Z.land v (Z.ones n) = v.
Proof. intros Hn Hv. rewrite Z.land_ones by lia. apply Z.mod_small. lia. Qed.

Lemma land_ones_range v n : 0 <= n -> 0 <= Z.land v (Z.ones n) < 2 ^ n.
Proof. intros Hn. rewrite Z.land_ones by lia. apply Z.mod_pos_bound. lia. Qed.

Lemma data_bits_le lsb size :
  1 <= lsb <= 8 -> Z.of_nat (data_chunks lsb size) * lsb <= 8 * Z.of_nat size.
Proof.
  intros Hl. unfold data_chunks, CHAN_SIZE.
  rewrite Z2Nat.id by (apply Z.div_pos; lia).
  pose proof (Z.mul_div_le (Z.of_nat size * 8) lsb ltac:(lia)). lia.
Qed.

Lemma decode_encoded im lsb xor_key size v key' :
  wf_image im -> 1 <= lsb <= 7 -> (1 <= size)%nat ->
  (pixels_needed lsb size <= shape_h im * shape_w im)%nat ->
  Z.of_nat size < 2 ^ (Z.of_nat (len_chunks lsb) * lsb) ->
  0 <= v ->
  LSBDecoder.decode
    (with_buffer im (encoded_buffer lsb (prolog_of lsb xor_key) size v (buffer im))) key'
  = match xor_key, key' with
    | Some _, None => Raise MissingXOR
    | Some _, Some k' => Ok (LSBCodec.xor (recovered lsb size v) k')
    | None, _ => Ok (recovered lsb size v)
    end.
Proof.
  intros Hwf Hl Hsize Hpix Hfit Hv. unfold pixels_needed in Hpix.
  set (B := encoded_buffer lsb (prolog_of lsb xor_key) size v (buffer im)).
  assert (HlenB : length B = length (buffer im))
    by (unfold B, encoded_buffer; rewrite !write_chunks_length; reflexivity).
  assert (Hwf' : wf_image (with_buffer im B)) by (apply wf_with_buffer; assumption).
  pose proof (at_pixel_iter_pixels _ Hwf') as Hat0.
  pose proof (iter_pixels_length _ Hwf') as Hlen0.
  cbn [with_buffer shape_h shape_w] in Hlen0.
  assert (Hbuf : length (buffer im) = (3 * (shape_h im * shape_w im))%nat)
    by (unfold wf_image in Hwf; change (Z.to_nat CHAN_CNT) with 3%nat in Hwf; lia).
  pose proof (ceil3_bounds (len_chunks lsb)) as Hc1.
  pose proof (ceil3_bounds (data_chunks lsb size)) as Hc2.
  assert (HR1 : read_chunks (mask1 1) 1 6 (3 * 0) 0 0 B = prolog_of lsb xor_key)
    by (unfold B; rewrite read_prolog by lia; apply prolog_fits; exact Hl).
  assert (HR2 : read_chunks (mask1 lsb) lsb (len_chunks lsb) (3 * 2) 0 0 B = Z.of_nat size)
    by (unfold B; rewrite read_length by lia;
        apply land_ones_small; [apply Z.mul_nonneg_nonneg; lia | lia]).
  assert (HR3 : read_chunks (mask1 lsb) lsb (data_chunks lsb size)
                  (3 * (2 + ceil3 (len_chunks lsb))) 0 0 B
                = Z.land v (Z.ones (Z.of_nat (data_chunks lsb size) * lsb)))
    by (unfold B; apply read_payload; lia).
  unfold LSBDecoder.decode, LSBDecoder.decode_m.
  rewrite (M_bind_eq new_piter _ _ _ (Ok tt) eq_refl). cbn [img].
  change (LSBCodec.gen0mask CHAN_CNT) with (@Ok Z 248).
  change (LSBCodec.gen1mask CHAN_CNT) with (@Ok Z 7).
  rewrite !M_bind_lift. change (PROLOG_SIZE * CHAN_CNT) with (Z.of_nat 6).
  erewrite M_bind_eq
    by (apply (decode_data_ok 6 1 _ 0);
        [lia | exact Hat0 | cbn [piter]; rewrite Hlen0; change (ceil3 6) with 2%nat; lia]).
  cbn [img piter buffer with_buffer]. change (ceil3 6) with 2%nat.
  rewrite HR1, M_bind_lift.
  fold (header_check (prolog_of lsb xor_key)). rewrite header_check_ok by exact Hl.
  rewrite prolog_flag by exact Hl.
  assert (Hat1 : at_pixel (with_buffer im B)
                   (drop 2 (LSBCodec.iter_pixels (with_buffer im B))) 2)
    by (apply (at_pixel_drop 2 _ _ 0 Hat0); lia).
  assert (Hat2 : at_pixel (with_buffer im B)
                   (drop (2 + ceil3 (len_chunks lsb))
                      (LSBCodec.iter_pixels (with_buffer im B)))
                   (2 + ceil3 (len_chunks lsb)))
    by (apply (at_pixel_drop _ _ _ 0 Hat0); lia).
  destruct xor_key as [key|]; destruct key' as [k'|];
    try change (LSBCodec.XOR_Y =? LSBCodec.XOR_Y) with true;
    try change (LSBCodec.XOR_N =? LSBCodec.XOR_Y) with false;
    cbv beta iota delta [andb]; try reflexivity.
  all: rewrite M_bind_lift, (floordiv_chunks _ lsb) by (unfold LEN_SIZE, CHAN_SIZE; lia);
    fold (len_chunks lsb);
    erewrite M_bind_eq
      by (apply (decode_data_ok _ lsb _ 2);
          [lia | exact Hat1 | cbn [piter]; rewrite length_drop, Hlen0; lia]);
    cbn [img piter buffer with_buffer]; rewrite drop_drop, HR2;
    rewrite M_bind_lift, (floordiv_chunks _ lsb) by (unfold CHAN_SIZE; lia);
    fold (data_chunks lsb size);
    erewrite M_bind_eq
      by (apply (decode_data_ok _ lsb _ (2 + ceil3 (len_chunks lsb)));
          [lia | exact Hat2 | cbn [piter]; rewrite length_drop, Hlen0; lia]);
    cbn [img piter buffer with_buffer]; rewrite HR3;
    rewrite M_bind_lift, int_to_bytes_spec;
    [reflexivity | | lia].
  all: pose proof (land_ones_range v (Z.of_nat (data_chunks lsb size) * lsb)
                     ltac:(apply Z.mul_nonneg_nonneg; lia)) as Hr;
    pose proof (data_bits_le lsb size ltac:(lia)) as Hb;
    rewrite pow_256; split; [lia|];
    eapply Z.lt_le_trans; [apply Hr|]; apply Z.pow_le_mono_r; lia.
Qed.

(** ** Outcomes of [encode] *)

Lemma encode_invalid_lsb im data lsb xor_key :
  ~ 1 <= lsb <= 8 -> LSBEncoder.encode im data lsb xor_key = (im, Raise InvalidLSB).
Proof.
  intros H. unfold LSBEncoder.encode, LSBEncoder.encode_m.
  rewrite M_bind_lift, lsb_check_bad by exact H. reflexivity.
Qed.

Lemma encode_too_much im data lsb xor_key :
  1 <= lsb <= 8 -> available_value im lsb < Z.of_nat (length data) ->
  LSBEncoder.encode im data lsb xor_key = (im, Raise TooMuchData).
Proof.
  intros Hl Hs. rewrite encode_run by exact Hl.
  destruct (Z.gtb_spec (Z.of_nat (length data)) (available_value im lsb)); [reflexivity | lia].
Qed.

Lemma encode_empty_payload im data lsb xor_key :
  1 <= lsb <= 8 -> Z.of_nat (length data) <= available_value im lsb ->
  keyed data xor_key = [] ->
  LSBEncoder.encode im data lsb xor_key = (im, Raise ValueError).
Proof.
  intros Hl Hs Hk. rewrite encode_run by exact Hl.
  destruct (Z.gtb_spec (Z.of_nat (length data)) (available_value im lsb)); [lia|].
  rewrite Hk. reflexivity.
Qed.

(** [encode] completes exactly on a valid width, a payload within
    [available], a non-empty packed payload and enough pixels. *)
Lemma encode_ok im data lsb xor_key :
  wf_image im -> 1 <= lsb <= 8 ->
  Z.of_nat (length data) <= available_value im lsb ->
  keyed data xor_key <> [] ->
  (pixels_needed lsb (length data) <= shape_h im * shape_w im)%nat ->
  LSBEncoder.encode im data lsb xor_key =
  (with_buffer im
     (encoded_buffer lsb (prolog_of lsb xor_key) (length data)
        (be_int (keyed data xor_key)) (buffer im)),
   Ok tt).
Proof.
  intros Hwf Hl Hs Hk Hpix. rewrite encode_run by exact Hl.
  destruct (Z.gtb_spec (Z.of_nat (length data)) (available_value im lsb)); [lia|].
  rewrite bytes_to_int_spec by exact Hk.
  rewrite encode_fields_ok by assumption. reflexivity.
Qed.

Lemma encode_stop im data lsb xor_key :
  wf_image im -> 1 <= lsb <= 8 ->
  Z.of_nat (length data) <= available_value im lsb ->
  keyed data xor_key <> [] ->
  (shape_h im * shape_w im < pixels_needed lsb (length data))%nat ->
  exists im', LSBEncoder.encode im data lsb xor_key = (im', Raise StopIteration).
Proof.
  intros Hwf Hl Hs Hk Hpix. rewrite encode_run by exact Hl.
  destruct (Z.gtb_spec (Z.of_nat (length data)) (available_value im lsb)); [lia|].
  rewrite bytes_to_int_spec by exact Hk.
  destruct (encode_fields_stop im lsb (prolog_of lsb xor_key) (length data)
              (be_int (keyed data xor_key)) Hwf Hl Hpix) as [st' Hst].
  rewrite Hst. eexists. reflexivity.
Qed.

Lemma encode_ok_inv im data lsb xor_key im' :
  wf_image im ->
  LSBEncoder.encode im data lsb xor_key = (im', Ok tt) ->
  1 <= lsb <= 8
  /\ Z.of_nat (length data) <= available_value im lsb
  /\ keyed data xor_key <> []
  /\ (pixels_needed lsb (length data) <= shape_h im * shape_w im)%nat
  /\ im' = with_buffer im
             (encoded_buffer lsb (prolog_of lsb xor_key) (length data)
                (be_int (keyed data xor_key)) (buffer im)).
Proof.
  intros Hwf Henc.
  destruct (decide (1 <= lsb <= 8)) as [Hl|Hl];
    [|rewrite encode_invalid_lsb in Henc by exact Hl; discriminate].
  destruct (Z.lt_ge_cases (available_value im lsb) (Z.of_nat (length data))) as [Hs|Hs];
    [rewrite encode_too_much in Henc by assumption; discriminate|].
  destruct (keyed data xor_key) as [|x l] eqn:Hk;
    [rewrite encode_empty_payload in Henc by (assumption || lia); discriminate|].
  assert (Hne : keyed data xor_key <> []) by (rewrite Hk; discriminate).
  destruct (le_lt_dec (pixels_needed lsb (length data)) (shape_h im * shape_w im))
    as [Hpix|Hpix].
  - rewrite encode_ok in Henc by (assumption || lia).
    injection Henc as <-. rewrite Hk. repeat split; (assumption || lia || discriminate).
  - destruct (encode_stop im data lsb xor_key Hwf Hl ltac:(lia) Hne Hpix) as [im'' Hst].
    rewrite Hst in Henc. discriminate.
Qed.

Lemma keyed_nonempty data xor_key :
  data <> [] -> xor_key <> Some [] -> keyed data xor_key <> [].
Proof.
  intros Hd Hk. destruct xor_key as [key|]; cbn [keyed]; [|exact Hd].
  intros Hx. apply (f_equal (@length byte)) in Hx.
  unfold LSBCodec.xor in Hx. rewrite xor_cycle_length in Hx by congruence.
  destruct data; [congruence | discriminate].
Qed.

Lemma keyed_length data xor_key :
  keyed data xor_key <> [] -> length (keyed data xor_key) = length data.
Proof.
  intros Hk. destruct xor_key as [key|]; cbn [keyed] in *; [|reflexivity].
  unfold LSBCodec.xor in *. destruct key as [|k key].
  - destruct data; cbn in Hk; congruence.
  - apply xor_cycle_length. discriminate.
Qed.

(** ** Exceptions the packing loop can raise *)

Lemma encode_channels_exn cs p m0 m1 lsb : forall v s im im' e,
  LSBEncoder.encode_channels cs p m0 m1 lsb v s im = (im', Raise e) -> e = IndexError.
Proof.
  induction cs as [|c cs IH]; intros v s im im' e H; cbn [LSBEncoder.encode_channels] in H.
  - discriminate.
  - destruct (s =? 0); [discriminate|].
    unfold get_chan, set_chan in H.
    destruct (buffer im !! offset im p c); [|congruence].
    destruct (decide _); [|congruence].
    eapply IH. exact H.
Qed.

Lemma encode_while_exn m0 m1 lsb it : forall v s im st e,
  LSBEncoder.encode_while it m0 m1 lsb v s im = (st, Raise e) -> loop_exn e = true.
Proof.
  induction it as [|p it IH]; intros v s im st e H; cbn [LSBEncoder.encode_while] in H.
  - destruct (s =? 0); [discriminate|]. injection H as _ <-. reflexivity.
  - destruct (s =? 0); [discriminate|].
    destruct (LSBEncoder.encode_channels _ p m0 m1 lsb v s im) as [im1 [[v1 s1]|e1]] eqn:E.
    + eapply IH. exact H.
    + apply encode_channels_exn in E. injection H as _ <-. subst e1. reflexivity.
Qed.

(** ** More on the outcomes of [encode] *)

Lemma gen1mask_exn size e : LSBCodec.gen1mask size = Raise e -> e = AssertionError.
Proof.
  unfold LSBCodec.gen1mask.
  assert (H : forall l acc,
             (forall e, acc = Raise e -> e = AssertionError) ->
             forall e,
               fold_left (fun acc i => mask ← acc; g ← LSBCodec.genmask (Z.of_nat i);
                                       Ok (Z.lor mask g)) l acc = Raise e ->
               e = AssertionError).
  { induction l as [|i l IH]; intros acc Hacc e' He; cbn [fold_left] in He.
    - apply Hacc. exact He.
    - eapply IH; [|exact He]. intros e'' H''.
      destruct acc as [mask|e0]; cbn in H''.
      + unfold LSBCodec.genmask in H''.
        destruct (Z.of_nat i <=? CHAN_SIZE); cbn in H''; congruence.
      + apply Hacc. congruence. }
  apply H. discriminate.
Qed.

Lemma encode_data_exn v s lsb st st' e :
  LSBEncoder._encode_data v s lsb st = (st', Raise e) -> loop_exn e = true.
Proof.
  unfold LSBEncoder._encode_data. rewrite M_bind_lift.
  unfold LSBCodec.gen0mask.
  destruct (LSBCodec.gen1mask CHAN_SIZE) as [a|e0] eqn:E0; cbn [mbind result_bind].
  2:{ intros H. injection H as _ <-. apply gen1mask_exn in E0. subst. reflexivity. }
  destruct (LSBCodec.gen1mask lsb) as [b|e1] eqn:E1; cbn [mbind result_bind].
  2:{ intros H. injection H as _ <-. apply gen1mask_exn in E1. subst. reflexivity. }
  rewrite M_bind_lift. unfold LSBEncoder.encode_loop. apply encode_while_exn.
Qed.

Lemma encode_fields_exn lsb prolog size v st st' e :
  encode_fields lsb prolog size v st = (st', Raise e) -> loop_exn e = true.
Proof.
  unfold encode_fields, mbind, M_bind.
  destruct (LSBEncoder._encode_data prolog _ 1 st) as [st1 [[]|e1]] eqn:E1.
  2:{ intros H. injection H as _ <-. eapply encode_data_exn. exact E1. }
  destruct (LSBEncoder._encode_data (Z.of_nat size) _ lsb st1) as [st2 [[]|e2]] eqn:E2.
  2:{ intros H. injection H as _ <-. eapply encode_data_exn. exact E2. }
  apply encode_data_exn.
Qed.

Lemma bytes_to_int_exn b e : LSBCodec.bytes_to_int b = Raise e -> e = ValueError.
Proof.
  destruct b as [|x b].
  - cbn. congruence.
  - rewrite bytes_to_int_spec by discriminate. discriminate.
Qed.

Lemma data_bits_dividing lsb size :
  lsb = 1 \/ lsb = 2 \/ lsb = 4 ->
  Z.of_nat (data_chunks lsb size) * lsb = 8 * Z.of_nat size.
Proof.
  intros H. unfold data_chunks, CHAN_SIZE.
  rewrite Z2Nat.id by (apply Z.div_pos; lia).
  destruct H as [-> | [-> | ->]].
  - rewrite Z.div_1_r. lia.
  - replace (Z.of_nat size * 8) with (Z.of_nat size * 4 * 2) by lia.
    rewrite Z.div_mul by lia. lia.
  - replace (Z.of_nat size * 8) with (Z.of_nat size * 2 * 4) by lia.
    rewrite Z.div_mul by lia. lia.
Qed.

(** At a width that divides 8 nothing of the payload value is cut off. *)
Lemma recovered_dividing lsb data :
  lsb = 1 \/ lsb = 2 \/ lsb = 4 ->
  recovered lsb (length data) (be_int data) = data.
Proof.
  intros H. unfold recovered. rewrite data_bits_dividing by exact H.
  pose proof (be_int_range data) as Hr. rewrite pow_256 in Hr.
  rewrite land_ones_small by lia. apply be_bytes_be_int.
Qed.

Lemma recovered_length lsb size v : length (recovered lsb size v) = size.
Proof. apply be_bytes_length. Qed.

Lemma xor_length data key : key <> [] -> length (LSBCodec.xor data key) = length data.
Proof. intros H. apply xor_cycle_length. exact H. Qed.

(** XOR self-inverse. *)
Lemma xor_invol data key : key <> [] -> LSBCodec.xor (LSBCodec.xor data key) key = data.
Proof. intros H. apply xor_cycle_invol. exact H. Qed.

(** Round trip at the widths that divide 8, for a payload that [encode]
    accepted: [decode] with the same key returns the payload. *)
Lemma roundtrip_dividing_widths im data lsb xor_key im' :
  wf_image im -> lsb = 1 \/ lsb = 2 \/ lsb = 4 ->
  xor_key <> Some [] ->
  Z.of_nat (length data) < 2 ^ length_field_bits lsb ->
  LSBEncoder.encode im data lsb xor_key = (im', Ok tt) ->
  LSBDecoder.decode im' xor_key = Ok data.
Proof.
  intros Hwf Hl Hkey Hfit Henc.
  destruct (encode_ok_inv _ _ _ _ _ Hwf Henc) as (_ & _ & Hne & Hpix & ->).
  pose proof (keyed_length _ _ Hne) as Hlen.
  pose proof (be_int_range (keyed data xor_key)) as Hv.
  assert (Hsz : (1 <= length data)%nat)
    by (rewrite <- Hlen; destruct (keyed data xor_key); [congruence | cbn; lia]).
  rewrite decode_encoded by (assumption || lia).
  rewrite <- Hlen, recovered_dividing by exact Hl.
  destruct xor_key as [key|]; [|reflexivity].
  cbn [keyed]. rewrite xor_invol by congruence. reflexivity.
Qed.

(** An integer given where a key is expected is taken as the bit width,
    whatever the integer: an invalid one fails [lsb_check] in [encode]. *)
Lemma encode_dyn_any_int int_of_bytes im data z xor_key :
  LSBEncoder.encode_dyn int_of_bytes im data (PyInt z) xor_key
  = LSBEncoder.encode im data z xor_key.
Proof.
  unfold LSBEncoder.encode_dyn, LSBEncoder.lsb_check_dyn.
  cbn [LSBEncoder.py_int mbind result_bind].
  destruct (decide (1 <= z <= 8)) as [Hz|Hz].
  - rewrite lsb_check_ok by exact Hz. destruct (Z.eqb_spec z 0); [lia | reflexivity].
  - rewrite lsb_check_bad by exact Hz. symmetry. apply encode_invalid_lsb. exact Hz.
Qed.

(** An integer given where a key is expected is taken as the bit width. *)
Lemma encode_dyn_int int_of_bytes im data z xor_key :
  1 <= z <= 8 ->
  LSBEncoder.encode_dyn int_of_bytes im data (PyInt z) xor_key
  = LSBEncoder.encode im data z xor_key.
Proof.
  intros Hz. unfold LSBEncoder.encode_dyn, LSBEncoder.lsb_check_dyn.
  cbn [LSBEncoder.py_int mbind result_bind]. rewrite lsb_check_ok by exact Hz.
  destruct (Z.eqb_spec z 0); [lia | reflexivity].
Qed.

(** * The claims *)

(** C1 (the code fails the claim).  Round trip: for every buffer within
    [available], every bit width in [1,7] and every optional non-empty key,
    decoding what was encoded returns the buffer.  On a 2x4x3 grid of zero
    pixels, width 3, no key, the one-byte payload [0xff] is within
    [available] and [encode] completes, but it packs [8 // 3 = 2] chunks,
    six bits, so [decode] returns [0x3f]. *)
Theorem C1_roundtrip_fails_at_width_3 :
  LSBCodec.available (zeros 2 4) 3 = Ok 6
  /\ exists im',
       LSBEncoder.encode (zeros 2 4) [xff] 3 None = (im', Ok tt)
       /\ LSBDecoder.decode im' None = Ok [x3f]
       /\ [x3f] <> [xff].
Proof.
  split; [reflexivity|]. eexists. split; [vm_compute; reflexivity|].
  split; [vm_compute; reflexivity | discriminate].
Qed.

(** C2 (the code fails the claim).  The payload step writes
    [ceil(size * 8 / BitWidth)] chunks, least-significant chunk first, and
    the decoder reads as many.  For one byte at width 3 the claim's count is
    3; [encode] passes [size * CHAN_SIZE // lsb_cnt = 2] to [_encode_data],
    and on the 2x4x3 zero grid the payload [0xff] leaves two written
    channels, at offsets 18 and 19, and channel 20 untouched. *)
Theorem C2_payload_chunks_floor_at_width_3 :
  chunks_claimed 1 3 = 3
  /\ floordiv (1 * CHAN_SIZE) 3 = Ok 2
  /\ LSBEncoder.encode (zeros 2 4) [xff] 3 None
     = (Image 2 4 [1; 1; 0; 0; 0; 0;  1; 0; 0; 0; 0; 0; 0; 0; 0; 0; 0; 0;
                   7; 7; 0; 0; 0; 0], Ok tt).
Proof. repeat split; vm_compute; reflexivity. Qed.

(** C3 (the code fails the claim).  [available] is
    [((channels - 6) // (8 / bw)) - 4 - 1].  The code subtracts
    [PROLOG_SIZE = 2], the prologue's pixels, from the channel count: at
    width 8 it is 4 above the claimed value on every image, and on a 2x5x3
    grid at width 2 it is 2 where the claim gives 1. *)
Theorem C3_available_subtracts_prolog_pixels (im : image) :
  LSBCodec.available im 8 = Ok (available_claimed (img_size im) 8 + 4)
  /\ LSBCodec.available (zeros 2 5) 2 = Ok 2
  /\ available_claimed (img_size (zeros 2 5)) 2 = 1.
Proof.
  split; [|split; reflexivity].
  rewrite available_spec by lia. unfold available_value, available_claimed.
  change (CHAN_SIZE / 8) with 1. change (8 / 8) with 1. rewrite !Z.div_1_r.
  unfold PROLOG_SIZE, LEN_SIZE. f_equal. lia.
Qed.

(** C4 (the code fails the claim).  Capacity boundary: [available + 1] bytes
    fail with [TooMuchData], [available] bytes succeed.  On a 2x5x3 zero
    grid at width 2, [available] is 2; three bytes raise [TooMuchData] and
    leave the grid as it was, but two bytes need 11 pixels of the 10: the
    call raises [StopIteration] after writing the prologue, the length and
    six of the eight payload chunks. *)
Theorem C4_capacity_boundary_2x5 :
  LSBCodec.available (zeros 2 5) 2 = Ok 2
  /\ LSBEncoder.encode (zeros 2 5) [x41; x42; x43] 2 None = (zeros 2 5, Raise TooMuchData)
  /\ pixels_needed 2 2 = 11%nat
  /\ LSBEncoder.encode (zeros 2 5) [x41; x42] 2 None
     = (Image 2 5 [0; 1; 0; 0; 0; 0;  2; 0; 0; 0; 0; 0; 0; 0; 0; 0; 0; 0;
                   0; 0; 0; 0; 0; 0;  2; 0; 0; 1; 1; 0], Raise StopIteration).
Proof. repeat split; vm_compute; reflexivity. Qed.

(** C5.  Whenever [encode] raises [TooMuchData], it has written no channel:
    the image after the call is the image before it.  The exception comes
    from the capacity check alone, on a valid width and a payload longer
    than [available]. *)
Theorem C5_too_much_data_leaves_grid (im im' : image) (data : bytes) (lsb : Z)
    (xor_key : option bytes)
    (Hraise : LSBEncoder.encode im data lsb xor_key = (im', Raise TooMuchData)) :
  im' = im /\ 1 <= lsb <= 8 /\ available_value im lsb < Z.of_nat (length data).
Proof.
  destruct (decide (1 <= lsb <= 8)) as [Hl|Hl];
    [|rewrite encode_invalid_lsb in Hraise by exact Hl; discriminate].
  rewrite encode_run in Hraise by exact Hl.
  destruct (Z.gtb_spec (Z.of_nat (length data)) (available_value im lsb)) as [Hgt|Hle].
  - injection Hraise as <-. repeat split; lia.
  - exfalso.
    destruct (LSBCodec.bytes_to_int (keyed data xor_key)) as [v|e] eqn:Ev.
    + cbv zeta in Hraise.
      destruct (encode_fields lsb (prolog_of lsb xor_key) (length data) v
                  (State im (LSBCodec.iter_pixels im))) as [st r] eqn:Ef.
      cbn [fst snd] in Hraise. injection Hraise as _ ->.
      apply encode_fields_exn in Ef. discriminate.
    + apply bytes_to_int_exn in Ev. injection Hraise as _ He. congruence.
Qed.

Lemma C5_too_much_data_leaves_grid_witness :
  LSBEncoder.encode (zeros 4 4) [x41; x42; x43] 1 None = (zeros 4 4, Raise TooMuchData)
  /\ zeros 4 4 = zeros 4 4
  /\ 1 <= 1 <= 8
  /\ available_value (zeros 4 4) 1 < Z.of_nat (length [x41; x42; x43]).
Proof.
  assert (H : LSBEncoder.encode (zeros 4 4) [x41; x42; x43] 1 None
              = (zeros 4 4, Raise TooMuchData)) by (vm_compute; reflexivity).
  split; [exact H|].
  exact (C5_too_much_data_leaves_grid (zeros 4 4) (zeros 4 4) [x41; x42; x43] 1 None H).
Defined.

(** The empty payload never gets past [bytes_to_int]. *)
Lemma encode_empty_raises im lsb xor_key :
  1 <= lsb <= 8 -> 0 <= available_value im lsb ->
  LSBEncoder.encode im [] lsb xor_key = (im, Raise ValueError).
Proof.
  intros Hl Ha. apply encode_empty_payload; [exact Hl | cbn; lia |].
  destruct xor_key as [[|k key]|]; reflexivity.
Qed.

(** C6 (the code fails the claim).  Encoding the empty buffer succeeds and
    decodes to the empty buffer.  On the 4x4x3 zero grid at width 1
    [available] is 0, so the empty buffer passes the capacity check; then
    [bytes_to_int] asks [int] for the value of the empty string and the
    call raises [ValueError].  The decoder has the matching gap:
    [int_to_bytes(0, 0)] hands the one-digit text [0] to [unhexlify]. *)
Theorem C6_empty_payload_raises :
  LSBCodec.available (zeros 4 4) 1 = Ok 0
  /\ LSBEncoder.encode (zeros 4 4) [] 1 None = (zeros 4 4, Raise ValueError)
  /\ LSBCodec.bytes_to_int [] = Raise ValueError
  /\ LSBCodec.int_to_bytes 0 0 = Raise BinasciiError.
Proof. repeat split; vm_compute; reflexivity. Qed.

(** C7, as the specification states it, fails: on the 4x4x3 zero grid at
    width 1 [available] is 0, and encoding the three bytes [0x41 0x42 0x43]
    raises [TooMuchData]. *)
Lemma C7_scenario_4x4_too_much_data :
  LSBCodec.available (zeros 4 4) 1 = Ok 0
  /\ LSBEncoder.encode (zeros 4 4) [x41; x42; x43] 1 None
     = (zeros 4 4, Raise TooMuchData).
Proof. split; vm_compute; reflexivity. Qed.

(** C7, amended.  On a 4x6x3 grid (72 channels) of zero pixels, encoding
    [0x41 0x42 0x43] at width 1 with no key succeeds; the prologue reads
    flag [0b000] and width 1, the length field reads 3, and decoding the
    grid returns [0x41 0x42 0x43]. *)
Theorem C7_scenario_4x6 :
  exists im',
    LSBEncoder.encode (zeros 4 6) [x41; x42; x43] 1 None = (im', Ok tt)
    /\ read_fields im' = Ok (0, 1, 3)
    /\ LSBDecoder.decode im' None = Ok [x41; x42; x43].
Proof.
  eexists. split; [vm_compute; reflexivity|].
  split; vm_compute; reflexivity.
Qed.

(** C8, as the specification states it, fails: a different key can return
    the payload.  The one-byte payload [0x41] encoded with key [01 02] is
    decoded to [0x41] by the key [01 03], as only the first key byte is
    used. *)
Lemma C8_wrong_key_returns_payload :
  exists im',
    LSBEncoder.encode (zeros 3 6) [x41] 1 (Some [x01; x02]) = (im', Ok tt)
    /\ [x01; x03] <> [x01; x02]
    /\ LSBDecoder.decode im' (Some [x01; x03]) = Ok [x41].
Proof.
  eexists. split; [vm_compute; reflexivity|].
  split; [discriminate | vm_compute; reflexivity].
Qed.

(** C8, amended.  For every image encoded with a non-empty key at a width
    in [1,7], with a payload length that fits the length field: decoding
    with no key raises [MissingXOR]; decoding with any non-empty key raises
    nothing and returns as many bytes as the payload has.  At widths 1, 2
    and 4 these bytes are [xor(xor(data, key), key')], and they are the
    payload exactly when the two keys XOR the payload alike. *)
Theorem C8_decoding_a_keyed_image (im im' : image) (data key key' : bytes) (lsb : Z)
    (Hwf : wf_image im) (Hlsb : 1 <= lsb <= 7)
    (Hkey : key <> []) (Hkey' : key' <> [])
    (Hfit : Z.of_nat (length data) < 2 ^ length_field_bits lsb)
    (Henc : LSBEncoder.encode im data lsb (Some key) = (im', Ok tt)) :
  LSBDecoder.decode im' None = Raise MissingXOR
  /\ exists out,
       LSBDecoder.decode im' (Some key') = Ok out
       /\ length out = length data
       /\ (lsb = 1 \/ lsb = 2 \/ lsb = 4 ->
           out = LSBCodec.xor (LSBCodec.xor data key) key'
           /\ (out = data <-> LSBCodec.xor data key' = LSBCodec.xor data key)).
Proof.
  destruct (encode_ok_inv _ _ _ _ _ Hwf Henc) as (_ & _ & Hne & Hpix & ->).
  pose proof (keyed_length _ _ Hne) as Hlen.
  pose proof (be_int_range (keyed data (Some key))) as Hv.
  assert (Hsz : (1 <= length data)%nat)
    by (rewrite <- Hlen; destruct (keyed data (Some key)); [congruence | cbn; lia]).
  unfold length_field_bits in Hfit.
  rewrite !decode_encoded by (assumption || lia).
  split; [reflexivity|].
  eexists. split; [reflexivity|].
  split; [rewrite xor_length, recovered_length by exact Hkey'; reflexivity|].
  intros Hdiv. rewrite <- Hlen, recovered_dividing by exact Hdiv. cbn [keyed].
  split; [reflexivity|]. split; intros H.
  - rewrite <- H at 1. rewrite xor_invol by exact Hkey'. reflexivity.
  - rewrite <- H. apply xor_invol. exact Hkey'.
Qed.

Lemma C8_decoding_a_keyed_image_witness :
  exists im',
    LSBEncoder.encode (zeros 3 6) [x41] 1 (Some [x01; x02]) = (im', Ok tt)
    /\ LSBDecoder.decode im' None = Raise MissingXOR
    /\ exists out,
         LSBDecoder.decode im' (Some [x07]) = Ok out
         /\ length out = 1%nat
         /\ (1 = 1 \/ 1 = 2 \/ 1 = 4 ->
             out = LSBCodec.xor (LSBCodec.xor [x41] [x01; x02]) [x07]
             /\ (out = [x41] <-> LSBCodec.xor [x41] [x07] = LSBCodec.xor [x41] [x01; x02])).
Proof.
  eexists. split; [vm_compute; reflexivity|].
  refine (C8_decoding_a_keyed_image (zeros 3 6) _ [x41] [x01; x02] [x07] 1 _ _ _ _ _ _).
  - reflexivity.
  - lia.
  - discriminate.
  - discriminate.
  - vm_compute. reflexivity.
  - vm_compute. reflexivity.
Defined.

(** C9.  Width 8 passes [lsb_check], and [encode] completes on a payload
    it accepts when the image has the pixels; but the prologue it writes
    is [0b001000] without a key, where the flag field reads [0b001], and
    [0b111000] with a key, where the width field reads 0; so every image
    encoded at width 8 makes [decode] raise [ValueError], with any key or
    none. *)
Theorem C9_width_8_is_never_decodable (im : image) (data : bytes)
    (xor_key : option bytes) (Hwf : wf_image im) :
  lsb_check 8 = Ok 8
  /\ Z.land (prolog_of 8 None) 248 = 8
  /\ (forall key, Z.land (prolog_of 8 (Some key)) 248 = LSBCodec.XOR_Y
                  /\ Z.land (prolog_of 8 (Some key)) 7 = 0)
  /\ (Z.of_nat (length data) <= available_value im 8 ->
      keyed data xor_key <> [] ->
      (pixels_needed 8 (length data) <= shape_h im * shape_w im)%nat ->
      exists im', LSBEncoder.encode im data 8 xor_key = (im', Ok tt))
  /\ (forall im',
        LSBEncoder.encode im data 8 xor_key = (im', Ok tt) ->
        forall key', LSBDecoder.decode im' key' = Raise ValueError).
Proof.
  split; [reflexivity|]. split; [reflexivity|]. split; [intros key; split; reflexivity|].
  split.
  - intros Hs Hne Hpix. eexists. apply encode_ok; assumption || lia.
  - intros im' Henc key'.
    destruct (encode_ok_inv _ _ _ _ _ Hwf Henc) as (_ & _ & Hne & Hpix & ->).
    unfold pixels_needed in Hpix.
    assert (Hbuf : length (buffer im) = (3 * (shape_h im * shape_w im))%nat)
      by (unfold wf_image in Hwf; change (Z.to_nat CHAN_CNT) with 3%nat in Hwf; lia).
    apply decode_bad_header.
    + apply wf_with_buffer; [exact Hwf|].
      unfold encoded_buffer. rewrite !write_chunks_length. reflexivity.
    + cbn [with_buffer shape_h shape_w]. lia.
    + cbn [with_buffer buffer]. rewrite read_prolog by lia.
      apply header_check_width8.
Qed.

Lemma C9_width_8_is_never_decodable_witness :
  wf_image (zeros 2 3)
  /\ exists im',
       LSBEncoder.encode (zeros 2 3) [x41] 8 (Some [x01]) = (im', Ok tt)
       /\ LSBDecoder.decode im' (Some [x01]) = Raise ValueError
       /\ LSBDecoder.decode im' None = Raise ValueError.
Proof.
  assert (Hwf : wf_image (zeros 2 3)) by reflexivity.
  split; [exact Hwf|].
  destruct (C9_width_8_is_never_decodable (zeros 2 3) [x41] (Some [x01]) Hwf)
    as (_ & _ & _ & Hdone & Hbad).
  destruct Hdone as [im' Him'].
  - vm_compute. discriminate.
  - vm_compute. discriminate.
  - vm_compute. lia.
  - exists im'. split; [exact Him'|]. split; apply (Hbad im' Him').
Defined.

(** C10, as stated, is refuted.  It lets [xor_key] be any value and says
    the two methods never succeed.  An integer given as the key is a valid
    bit width: [encode_string("A", 2)] and [encode_file] on a file holding
    [b"A"] with key [2] run [encode(b"A", 2)] on a 2x5 image of zeros,
    return normally and leave the image changed. *)
Lemma C10_integer_key_is_taken_as_width :
  exists im',
    LSBEncoder.encode_string (fun _ => None) string list_byte_of_string
      (zeros 2 5) "A"%string (PyInt 2) = (im', Ok tt)
    /\ LSBEncoder.encode_file (fun _ => None) unit (fun _ => Ok [x41])
         (zeros 2 5) tt (PyInt 2) = (im', Ok tt)
    /\ im' <> zeros 2 5.
Proof.
  eexists. split; [vm_compute; reflexivity|]. split; [vm_compute; reflexivity|].
  discriminate.
Qed.

(** C10, amended.  [encode_string] and [encode_file] hand their [xor_key]
    to [encode] as the bit width, and [encode]'s own key stays [None].
    For every string or file and every key that is a bytes object or
    [None], the call raises and the image is as before: [None] is a
    [TypeError] in [int]; a bytes object is a [ValueError] when it spells
    no integer, [InvalidLSB] when the integer is no valid width, and
    otherwise a [TypeError] at [CHAN_SIZE // lsb_cnt].  For a key that is
    an integer [z], [encode_string] is [encode] of the string's bytes at
    width [z] with no key, and [encode_file] is [encode] of the file's
    content at width [z] with no key, or the exception reading the file
    raised.  So no value of [xor_key] is ever applied as an XOR key. *)
Theorem C10_entry_points_always_raise
    (int_of_bytes : bytes -> option Z)
    (pystr : Type) (str_encode : pystr -> bytes)
    (filename : Type) (read_file : filename -> result bytes)
    (im : image) (string : pystr) (fn : filename) (xor_key : option bytes) :
  (exists e,
     LSBEncoder.encode_string int_of_bytes pystr str_encode im string (key_object xor_key)
     = (im, Raise e)
     /\ (e = TypeError \/ e = ValueError \/ e = InvalidLSB))
  /\ (exists e,
        LSBEncoder.encode_file int_of_bytes filename read_file im fn (key_object xor_key)
        = (im, Raise e))
  /\ (forall z,
        LSBEncoder.encode_string int_of_bytes pystr str_encode im string (PyInt z)
        = LSBEncoder.encode im (str_encode string) z None)
  /\ (forall z,
        LSBEncoder.encode_file int_of_bytes filename read_file im fn (PyInt z)
        = match read_file fn with
          | Ok data => LSBEncoder.encode im data z None
          | Raise e => (im, Raise e)
          end).
Proof.
  assert (Hdyn : forall data,
            exists e,
              LSBEncoder.encode_dyn int_of_bytes im data (key_object xor_key) None
              = (im, Raise e)
              /\ (e = TypeError \/ e = ValueError \/ e = InvalidLSB)).
  { intros data. unfold LSBEncoder.encode_dyn, LSBEncoder.lsb_check_dyn.
    destruct xor_key as [key|]; cbn [key_object LSBEncoder.py_int mbind result_bind].
    - destruct (int_of_bytes key) as [z|]; cbn [mbind result_bind].
      + destruct (decide (1 <= z <= 8)) as [Hz|Hz].
        * rewrite lsb_check_ok by exact Hz.
          destruct (Z.eqb_spec z 0); [lia|]. eauto.
        * rewrite lsb_check_bad by exact Hz. eauto.
      + eauto.
    - eauto. }
  split; [|split; [|split]].
  - apply Hdyn.
  - unfold LSBEncoder.encode_file. destruct (read_file fn) as [data|e].
    + destruct (Hdyn data) as (e & He & _). eauto.
    + eauto.
  - intros z. unfold LSBEncoder.encode_string. apply encode_dyn_any_int.
  - intros z. unfold LSBEncoder.encode_file. destruct (read_file fn) as [data|e].
    + apply encode_dyn_any_int.
    + reflexivity.
Qed.

(** * Further properties of the codec *)

(** ** [LSBCodec.xor] *)

Lemma lookup_head {A} (x : A) (l : list A) : (x :: l) !! 0%nat = Some x.
Proof. reflexivity. Qed.

Lemma lookup_tail {A} (x : A) (l : list A) (i : nat) : (x :: l) !! S i = l !! i.
Proof. reflexivity. Qed.

Lemma xor_cycle_lookup key data : forall j i d,
  key <> [] -> (j <= length key)%nat -> data !! i = Some d ->
  LSBCodec.xor_cycle data (drop j key) key !! i
  = byte_xor d <$> key !! ((j + i) mod length key)%nat.
Proof.
  induction data as [|d0 data IH]; intros j i d Hk Hj Hd; [discriminate|].
  assert (Hlen : (0 < length key)%nat) by (destruct key; [congruence | cbn; lia]).
  destruct (decide (j < length key)%nat) as [Hlt|Hge].
  - destruct (lookup_lt_is_Some_2 key j Hlt) as [k Hkj].
    rewrite (drop_S _ _ _ Hkj). cbn [LSBCodec.xor_cycle].
    destruct i as [|i].
    + rewrite lookup_head in *. injection Hd as ->.
      rewrite Nat.add_0_r, Nat.mod_small by exact Hlt.
      rewrite Hkj. reflexivity.
    + rewrite lookup_tail in *. rewrite (IH (S j) i d) by (assumption || lia).
      do 3 f_equal. lia.
  - assert (j = length key) by lia. subst j. rewrite drop_all.
    destruct key as [|k0 key']; [congruence|]. cbn [LSBCodec.xor_cycle].
    destruct i as [|i].
    + rewrite lookup_head in *. injection Hd as ->.
      rewrite Nat.add_0_r, Nat.Div0.mod_same. reflexivity.
    + rewrite lookup_tail in *.
      change key' with (drop 1 (k0 :: key')) at 1.
      rewrite (IH 1%nat i d) by (assumption || lia).
      do 2 f_equal.
      replace (length (k0 :: key') + S i)%nat with (1 + i + 1 * length (k0 :: key'))%nat by lia.
      rewrite Nat.Div0.mod_add. reflexivity.
Qed.

(** X1.  [xor] cycles the key: the result has the length of the data and
    its byte [i] is [data[i] ^ key[i mod len(key)]]. *)
Theorem xor_cycles_key (data key : bytes) (i : nat) (d : byte)
    (Hkey : key <> []) (Hd : data !! i = Some d) :
  length (LSBCodec.xor data key) = length data
  /\ exists k, key !! (i mod length key)%nat = Some k
               /\ LSBCodec.xor data key !! i = Some (byte_xor d k).
Proof.
  split; [apply xor_length; exact Hkey|].
  assert (Hlen : (0 < length key)%nat) by (destruct key; [congruence | cbn; lia]).
  destruct (lookup_lt_is_Some_2 key (i mod length key)%nat) as [k Hk];
    [apply Nat.mod_upper_bound; lia|].
  exists k. split; [exact Hk|].
  pose proof (xor_cycle_lookup key data 0 i d Hkey ltac:(lia) Hd) as H.
  rewrite drop_0 in H. cbn [Nat.add] in H. rewrite Hk in H. exact H.
Qed.

Lemma xor_cycles_key_witness :
  [x01; x02] <> [] /\ [x41; x42; x43] !! 2%nat = Some x43
  /\ length (LSBCodec.xor [x41; x42; x43] [x01; x02]) = 3%nat
  /\ exists k, [x01; x02] !! (2 mod 2)%nat = Some k
               /\ LSBCodec.xor [x41; x42; x43] [x01; x02] !! 2%nat = Some (byte_xor x43 k).
Proof.
  assert (H1 : [x01; x02] <> []) by discriminate.
  assert (H2 : [x41; x42; x43] !! 2%nat = Some x43) by reflexivity.
  split; [exact H1|]. split; [exact H2|].
  exact (xor_cycles_key [x41; x42; x43] [x01; x02] 2 x43 H1 H2).
Defined.

(** X2.  [xor] is its own inverse for a non-empty key, whatever the lengths
    of data and key. *)
Theorem xor_self_inverse (data key : bytes) (Hkey : key <> []) :
  LSBCodec.xor (LSBCodec.xor data key) key = data.
Proof. apply xor_cycle_invol. exact Hkey. Qed.

Lemma xor_self_inverse_witness :
  [x01; x02] <> []
  /\ LSBCodec.xor (LSBCodec.xor [x41; x42; x43] [x01; x02]) [x01; x02] = [x41; x42; x43].
Proof.
  assert (H1 : [x01; x02] <> []) by discriminate.
  split; [exact H1|]. exact (xor_self_inverse [x41; x42; x43] [x01; x02] H1).
Defined.

(** ** The masks *)

Lemma gen1mask_fold_raise l e :
  fold_left (fun acc i => mask ← acc; g ← LSBCodec.genmask (Z.of_nat i); Ok (Z.lor mask g))
            l (Raise e) = Raise e.
Proof. induction l as [|i l IH]; [reflexivity | exact IH]. Qed.

(** X3.  [gen1mask(size)] is [2^size - 1] up to [size = 9], zero for a
    negative size, and an [AssertionError] from [genmask] from 10 on. *)
Theorem gen1mask_value (size : Z) :
  LSBCodec.gen1mask size
  = if 10 <=? size then Raise AssertionError else Ok (2 ^ Z.max 0 size - 1).
Proof.
  destruct (Z.leb_spec 10 size) as [Hbig|Hsmall].
  - unfold LSBCodec.gen1mask, range.
    replace (Z.to_nat size) with (10 + (Z.to_nat size - 10))%nat by lia.
    rewrite seq_app, fold_left_app.
    match goal with
    | |- fold_left ?f _ (fold_left ?f (seq 0 10) (Ok 0)) = _ =>
        change (fold_left f (seq 0 10) (Ok 0)) with (@Raise Z AssertionError)
    end.
    apply gen1mask_fold_raise.
  - destruct (Z.lt_ge_cases size 0) as [Hneg|Hpos].
    + unfold LSBCodec.gen1mask, range. rewrite Z2Nat.nonpos by lia.
      rewrite Z.max_l by lia. reflexivity.
    + rewrite Z.max_r by lia. revert size Hpos Hsmall.
      assert (H : forall size, 0 <= size < 0 + Z.of_nat 10 ->
                               LSBCodec.gen1mask size = Ok (2 ^ size - 1))
        by (apply (range_cases (fun s => LSBCodec.gen1mask s = Ok (2 ^ s - 1)) 0 10);
            vm_compute; reflexivity).
      intros size H1 H2. apply H. lia.
Qed.

(** X4.  For a width up to 8 the two masks split the 8 bits of a channel:
    they share no bit and together make 255, [gen1mask] being the low
    [size] bits. *)
Theorem masks_split_channel (size m0 m1 : Z)
    (Hsize : 0 <= size <= 8)
    (H0 : LSBCodec.gen0mask size = Ok m0) (H1 : LSBCodec.gen1mask size = Ok m1) :
  m1 = 2 ^ size - 1 /\ Z.land m0 m1 = 0 /\ Z.lor m0 m1 = 255 /\ m0 + m1 = 255.
Proof.
  revert m0 m1 H0 H1.
  assert (H : forall size, 0 <= size < 0 + Z.of_nat 9 ->
            forall m0 m1, LSBCodec.gen0mask size = Ok m0 -> LSBCodec.gen1mask size = Ok m1 ->
            m1 = 2 ^ size - 1 /\ Z.land m0 m1 = 0 /\ Z.lor m0 m1 = 255 /\ m0 + m1 = 255).
  { intros s Hs m0 m1 H0 H1.
    rewrite gen0mask_high in H0 by lia. rewrite gen1mask_ones in H1 by lia.
    injection H0 as <-. injection H1 as <-. revert s Hs.
    apply (range_cases
             (fun s => Z.ones s = 2 ^ s - 1
                       /\ Z.land (Z.lxor 255 (Z.ones s)) (Z.ones s) = 0
                       /\ Z.lor (Z.lxor 255 (Z.ones s)) (Z.ones s) = 255
                       /\ Z.lxor 255 (Z.ones s) + Z.ones s = 255) 0 9).
    vm_compute. reflexivity. }
  apply H. lia.
Qed.

Lemma masks_split_channel_witness :
  0 <= 3 <= 8 /\ LSBCodec.gen0mask 3 = Ok 248 /\ LSBCodec.gen1mask 3 = Ok 7
  /\ 7 = 2 ^ 3 - 1 /\ Z.land 248 7 = 0 /\ Z.lor 248 7 = 255 /\ 248 + 7 = 255.
Proof.
  assert (Hs : 0 <= 3 <= 8) by lia.
  assert (H0 : LSBCodec.gen0mask 3 = Ok 248) by reflexivity.
  assert (H1 : LSBCodec.gen1mask 3 = Ok 7) by reflexivity.
  split; [exact Hs|]. split; [exact H0|]. split; [exact H1|].
  exact (masks_split_channel 3 248 7 Hs H0 H1).
Defined.

(** ** [bytes_to_int] and [int_to_bytes] *)

Lemma be_int_be_bytes n : forall v,
  0 <= v -> be_int (be_bytes n v) = v mod 256 ^ Z.of_nat n.
Proof.
  induction n as [|n IH]; intros v Hv.
  - cbn. rewrite Z.mod_1_r. reflexivity.
  - unfold be_bytes. rewrite seq_S, rev_app_distr. cbn [rev app map Nat.add].
    fold (be_bytes n v). rewrite be_int_cons, be_bytes_length, IH by exact Hv.
    rewrite byte_to_of_Z
      by (change 255 with (Z.ones 8); rewrite Z.land_ones by lia;
          apply Z.mod_pos_bound; lia).
    change 255 with (Z.ones 8). rewrite Z.land_ones, Z.shiftr_div_pow2 by lia.
    rewrite <- pow_256. change (2 ^ 8) with 256.
    rewrite Nat2Z.inj_succ, Z.pow_succ_r by lia.
    rewrite (Z.mul_comm 256), Z.rem_mul_r by (try apply Z.pow_nonzero; lia).
    ring.
Qed.



(** X6.  [int_to_bytes(bytes_to_int(b), len(b))] is [b] for every non-empty
    buffer, leading zero bytes included. *)
Theorem bytes_int_bytes_roundtrip (b : bytes) (Hb : b <> []) :
  exists v,
    LSBCodec.bytes_to_int b = Ok v
    /\ LSBCodec.int_to_bytes v (Z.of_nat (length b)) = Ok b.
Proof.
  exists (be_int b). split; [apply bytes_to_int_spec; exact Hb|].
  apply int_to_bytes_be_int. exact Hb.
Qed.

Lemma bytes_int_bytes_roundtrip_witness :
  [x00; x00; x42] <> []
  /\ exists v,
       LSBCodec.bytes_to_int [x00; x00; x42] = Ok v
       /\ LSBCodec.int_to_bytes v (Z.of_nat (length [x00; x00; x42])) = Ok [x00; x00; x42].
Proof.
  assert (H : [x00; x00; x42] <> []) by discriminate.
  split; [exact H|]. exact (bytes_int_bytes_roundtrip [x00; x00; x42] H).
Defined.

(** X7.  For a size [n >= 1] and a value that fits [n] bytes,
    [int_to_bytes] returns exactly [n] bytes, and [bytes_to_int] gives the
    value back. *)
Theorem int_bytes_int_roundtrip (v : Z) (n : nat)
    (Hv : 0 <= v < 256 ^ Z.of_nat n) (Hn : (1 <= n)%nat) :
  exists b,
    LSBCodec.int_to_bytes v (Z.of_nat n) = Ok b
    /\ length b = n
    /\ LSBCodec.bytes_to_int b = Ok v.
Proof.
  exists (be_bytes n v). split; [apply int_to_bytes_spec; assumption|].
  split; [apply be_bytes_length|].
  rewrite bytes_to_int_spec.
  - rewrite be_int_be_bytes by lia. rewrite Z.mod_small by exact Hv. reflexivity.
  - intros E. apply (f_equal (@length byte)) in E. rewrite be_bytes_length in E.
    cbn in E. lia.
Qed.

Lemma int_bytes_int_roundtrip_witness :
  0 <= 66 < 256 ^ Z.of_nat 3 /\ (1 <= 3)%nat
  /\ exists b,
       LSBCodec.int_to_bytes 66 (Z.of_nat 3) = Ok b
       /\ length b = 3%nat
       /\ LSBCodec.bytes_to_int b = Ok 66.
Proof.
  assert (Hv : 0 <= 66 < 256 ^ Z.of_nat 3) by (cbn; lia).
  assert (Hn : (1 <= 3)%nat) by lia.
  split; [exact Hv|]. split; [exact Hn|].
  exact (int_bytes_int_roundtrip 66 3 Hv Hn).
Defined.

(** ** [iter_pixels] *)

(** X8.  The generator yields every position of the image once, in
    row-major order: [shape_h * shape_w] positions, the one at step [k]
    being row [k / w], column [k mod w]. *)
Theorem iter_pixels_row_major (im : image) :
  LSBCodec.iter_pixels im
  = map (nth_position (shape_w im)) (seq 0 (shape_h im * shape_w im)).
Proof.
  unfold LSBCodec.iter_pixels. generalize (shape_h im) as H. intros H.
  induction H as [|H IH]; [reflexivity|].
  rewrite seq_S, flat_map_app, IH.
  replace (S H * shape_w im)%nat with (H * shape_w im + shape_w im)%nat by lia.
  rewrite seq_app, map_app. f_equal.
  cbn [flat_map]. rewrite app_nil_r.
  replace (0 + H * shape_w im)%nat with (H * shape_w im + 0)%nat by lia.
  rewrite <- (fmap_add_seq (H * shape_w im) 0 (shape_w im)).
  change (list_fmap nat nat) with (@map nat nat). rewrite map_map.
  apply map_ext_in. intros w Hw. apply in_seq in Hw.
  unfold nth_position. rewrite (Nat.add_comm (H * shape_w im) w). f_equal.
  - rewrite Nat.div_add by lia. rewrite Nat.div_small by lia. reflexivity.
  - rewrite Nat.Div0.mod_add. symmetry. apply Nat.mod_small. lia.
Qed.

(** ** What [encode] does, outcome by outcome *)

Lemma keyed_empty_iff data xor_key :
  keyed data xor_key = [] <-> data = [] \/ xor_key = Some [].
Proof.
  split.
  - intros Hk. destruct data as [|d data]; [left; reflexivity|]. right.
    destruct xor_key as [[|k key]|]; [reflexivity | discriminate | discriminate].
  - intros [-> | ->].
    + destruct xor_key as [[|k key]|]; reflexivity.
    + destruct data; reflexivity.
Qed.

(** X9.  On an image whose buffer matches its shape, [encode] has five
    outcomes, decided in this order: [InvalidLSB] for a width outside 1..8;
    [TooMuchData] for a payload longer than [available]; [ValueError] for
    an empty payload or an empty key; [StopIteration] when the three fields
    need more pixels than the image has; and completion otherwise.  In the
    first three the image is left as it was. *)
Theorem encode_outcomes (im : image) (data : bytes) (lsb : Z) (xor_key : option bytes)
    (Hwf : wf_image im) :
  (~ 1 <= lsb <= 8
   /\ LSBEncoder.encode im data lsb xor_key = (im, Raise InvalidLSB))
  \/ (1 <= lsb <= 8
      /\ available_value im lsb < Z.of_nat (length data)
      /\ LSBEncoder.encode im data lsb xor_key = (im, Raise TooMuchData))
  \/ (1 <= lsb <= 8
      /\ Z.of_nat (length data) <= available_value im lsb
      /\ (data = [] \/ xor_key = Some [])
      /\ LSBEncoder.encode im data lsb xor_key = (im, Raise ValueError))
  \/ (1 <= lsb <= 8
      /\ Z.of_nat (length data) <= available_value im lsb
      /\ data <> [] /\ xor_key <> Some []
      /\ (shape_h im * shape_w im < pixels_needed lsb (length data))%nat
      /\ exists im', LSBEncoder.encode im data lsb xor_key = (im', Raise StopIteration))
  \/ (1 <= lsb <= 8
      /\ Z.of_nat (length data) <= available_value im lsb
      /\ data <> [] /\ xor_key <> Some []
      /\ (pixels_needed lsb (length data) <= shape_h im * shape_w im)%nat
      /\ exists im', LSBEncoder.encode im data lsb xor_key = (im', Ok tt)).
Proof.
  destruct (decide (1 <= lsb <= 8)) as [Hl|Hl];
    [|left; split; [exact Hl | apply encode_invalid_lsb; exact Hl]].
  right.
  destruct (Z.lt_ge_cases (available_value im lsb) (Z.of_nat (length data))) as [Hs|Hs];
    [left; split; [exact Hl | split; [exact Hs | apply encode_too_much; assumption]]|].
  right.
  destruct (keyed data xor_key) as [|b0 bs] eqn:Ekey.
  { left. apply keyed_empty_iff in Ekey as He. repeat split; try assumption; try lia.
    apply encode_empty_payload; [exact Hl | lia | apply keyed_empty_iff; exact He]. }
  right.
  assert (Hne : keyed data xor_key <> []) by (rewrite Ekey; discriminate).
  assert (Hd : data <> [])
    by (intros E; apply Hne, keyed_empty_iff; left; exact E).
  assert (Hk : xor_key <> Some [])
    by (intros E; apply Hne, keyed_empty_iff; right; exact E).
  clear Ekey.
  destruct (le_lt_dec (pixels_needed lsb (length data)) (shape_h im * shape_w im))
    as [Hpix|Hpix].
  - right. repeat split; try assumption; try lia.
    eexists. apply encode_ok; assumption || lia.
  - left. repeat split; try assumption; try lia.
    apply encode_stop; assumption || lia.
Qed.

Lemma encode_outcomes_witness :
  wf_image (zeros 2 5)
  /\ exists im', LSBEncoder.encode (zeros 2 5) [x41] 2 None = (im', Ok tt).
Proof.
  assert (Hwf : wf_image (zeros 2 5)) by reflexivity.
  split; [exact Hwf|].
  destruct (encode_outcomes (zeros 2 5) [x41] 2 None Hwf)
    as [[Hbad _] | [(_ & Hbad & _) | [(_ & _ & Hbad & _) | [(_ & _ & _ & _ & Hbad & _) | H]]]].
  - exfalso. apply Hbad. lia.
  - exfalso. vm_compute in Hbad. discriminate Hbad.
  - exfalso. destruct Hbad as [Hbad | Hbad]; discriminate Hbad.
  - exfalso. vm_compute in Hbad. lia.
  - destruct H as (_ & _ & _ & _ & _ & Hok). exact Hok.
Defined.

Lemma ceil3_le n m : (n <= 3 * m)%nat -> (ceil3 n <= m)%nat.
Proof. intros H. pose proof (ceil3_bounds n). lia. Qed.

Lemma ceil3_ge n m : (3 * m < n)%nat -> (m < ceil3 n)%nat.
Proof. intros H. pose proof (ceil3_bounds n). lia. Qed.

Lemma available_value_1 im :
  available_value im 1 = (3 * Z.of_nat (shape_h im * shape_w im) - 2) / 8 - 5.
Proof.
  unfold available_value, img_size, PROLOG_SIZE, LEN_SIZE, CHAN_SIZE, CHAN_CNT.
  rewrite Z.div_1_r.
  replace (Z.of_nat (shape_h im) * Z.of_nat (shape_w im) * 3 - 2)
    with (3 * Z.of_nat (shape_h im * shape_w im) - 2) by lia.
  lia.
Qed.

Lemma available_value_8 im :
  available_value im 8 = 3 * Z.of_nat (shape_h im * shape_w im) - 7.
Proof.
  unfold available_value, img_size, PROLOG_SIZE, LEN_SIZE, CHAN_SIZE, CHAN_CNT.
  change (8 / 8) with 1. rewrite Z.div_1_r. lia.
Qed.

(** X10.  At width 1 [available] is safe: every non-empty payload within
    it, with no key or a non-empty one, is encoded to completion. *)
Theorem width_1_capacity_is_safe (im : image) (data : bytes) (xor_key : option bytes)
    (Hwf : wf_image im) (Hd : data <> []) (Hk : xor_key <> Some [])
    (Hs : Z.of_nat (length data) <= available_value im 1) :
  exists im', LSBEncoder.encode im data 1 xor_key = (im', Ok tt).
Proof.
  eexists. apply encode_ok; try assumption; try lia.
  - apply keyed_nonempty; assumption.
  - rewrite available_value_1 in Hs.
    pose proof (Z.mul_div_le (3 * Z.of_nat (shape_h im * shape_w im) - 2) 8 ltac:(lia)) as Hdiv.
    unfold pixels_needed.
    change (len_chunks 1) with 32%nat. change (ceil3 32) with 11%nat.
    assert (Hc : (ceil3 (data_chunks 1 (length data)) <= shape_h im * shape_w im - 14)%nat).
    { apply ceil3_le. unfold data_chunks, CHAN_SIZE. rewrite Z.div_1_r. lia. }
    lia.
Qed.

Lemma width_1_capacity_is_safe_witness :
  wf_image (zeros 4 6) /\ [x41; x42; x43] <> [] /\ None <> Some ([] : bytes)
  /\ Z.of_nat (length [x41; x42; x43]) <= available_value (zeros 4 6) 1
  /\ exists im', LSBEncoder.encode (zeros 4 6) [x41; x42; x43] 1 None = (im', Ok tt).
Proof.
  assert (Hwf : wf_image (zeros 4 6)) by reflexivity.
  assert (Hd : [x41; x42; x43] <> []) by discriminate.
  assert (Hk : None <> Some ([] : bytes)) by discriminate.
  assert (Hs : Z.of_nat (length [x41; x42; x43]) <= available_value (zeros 4 6) 1)
    by (vm_compute; discriminate).
  split; [exact Hwf|]. split; [exact Hd|]. split; [exact Hk|]. split; [exact Hs|].
  exact (width_1_capacity_is_safe (zeros 4 6) [x41; x42; x43] None Hwf Hd Hk Hs).
Defined.

(** X11.  At width 8 [available] is 5 bytes too generous: a non-empty
    payload that passes the capacity check is encoded to completion exactly
    when it is at most [available - 5] bytes long; the lengths in between
    exhaust the pixels and raise [StopIteration]. *)
Theorem width_8_capacity_overshoots (im : image) (data : bytes) (xor_key : option bytes)
    (Hwf : wf_image im) (Hd : data <> []) (Hk : xor_key <> Some [])
    (Hs : Z.of_nat (length data) <= available_value im 8) :
  (Z.of_nat (length data) <= available_value im 8 - 5 ->
   exists im', LSBEncoder.encode im data 8 xor_key = (im', Ok tt))
  /\ (available_value im 8 - 5 < Z.of_nat (length data) ->
      exists im', LSBEncoder.encode im data 8 xor_key = (im', Raise StopIteration)).
Proof.
  pose proof (keyed_nonempty data xor_key Hd Hk) as Hne.
  rewrite available_value_8 in *.
  assert (Hchunks : data_chunks 8 (length data) = length data).
  { unfold data_chunks, CHAN_SIZE. rewrite Z.div_mul by lia. apply Nat2Z.id. }
  assert (Hpix : pixels_needed 8 (length data) = (4 + ceil3 (length data))%nat).
  { unfold pixels_needed. rewrite Hchunks.
    change (len_chunks 8) with 4%nat. change (ceil3 4) with 2%nat. reflexivity. }
  assert (Hpos : (1 <= length data)%nat) by (destruct data; [congruence | cbn; lia]).
  split; intros Hlen.
  - eexists. apply encode_ok; try assumption; try lia.
    + rewrite available_value_8. lia.
    + rewrite Hpix.
      assert (ceil3 (length data) <= shape_h im * shape_w im - 4)%nat
        by (apply ceil3_le; lia).
      lia.
  - apply encode_stop; try assumption; try lia.
    + rewrite available_value_8. lia.
    + rewrite Hpix.
      assert (shape_h im * shape_w im - 4 < ceil3 (length data))%nat
        by (apply ceil3_ge; lia).
      lia.
Qed.

Lemma width_8_capacity_overshoots_witness :
  wf_image (zeros 2 3) /\ [x41; x42; x43; x44; x45; x46; x47] <> []
  /\ None <> Some ([] : bytes)
  /\ Z.of_nat (length [x41; x42; x43; x44; x45; x46; x47]) <= available_value (zeros 2 3) 8
  /\ exists im',
       LSBEncoder.encode (zeros 2 3) [x41; x42; x43; x44; x45; x46; x47] 8 None
       = (im', Raise StopIteration).
Proof.
  assert (Hwf : wf_image (zeros 2 3)) by reflexivity.
  assert (Hd : [x41; x42; x43; x44; x45; x46; x47] <> []) by discriminate.
  assert (Hk : None <> Some ([] : bytes)) by discriminate.
  assert (Hs : Z.of_nat (length [x41; x42; x43; x44; x45; x46; x47])
               <= available_value (zeros 2 3) 8) by (vm_compute; discriminate).
  split; [exact Hwf|]. split; [exact Hd|]. split; [exact Hk|]. split; [exact Hs|].
  apply (width_8_capacity_overshoots (zeros 2 3) _ None Hwf Hd Hk Hs).
  vm_compute. reflexivity.
Defined.

(** ** What the packing loops keep *)

Section LoopInvariant.

Variables m0 m1 : Z.
Variable R : list Z -> list Z -> Prop.
Hypothesis R_refl : forall buf, R buf buf.
Hypothesis R_trans : forall b1 b2 b3, R b1 b2 -> R b2 b3 -> R b1 b3.
Hypothesis R_write : forall buf o x v,
  buf !! o = Some x -> R buf (<[o := merge m0 m1 x v]> buf).

Lemma encode_channels_inv p lsb cs : forall v s im im' r,
  LSBEncoder.encode_channels cs p m0 m1 lsb v s im = (im', r) ->
  shape_h im' = shape_h im /\ shape_w im' = shape_w im
  /\ R (buffer im) (buffer im').
Proof using R_refl R_trans R_write.
  induction cs as [|c cs IH]; intros v s im im' r H; cbn [LSBEncoder.encode_channels] in H.
  - injection H as <- _. auto.
  - destruct (s =? 0); [injection H as <- _; auto|].
    unfold get_chan, set_chan in H.
    destruct (buffer im !! offset im p c) as [x|] eqn:Ex; [|injection H as <- _; auto].
    destruct (decide _); [|injection H as <- _; auto].
    apply IH in H. cbn [shape_h shape_w buffer] in H.
    destruct H as (Hh & Hw & HR). repeat split; try assumption.
    eapply R_trans; [|exact HR]. apply R_write. exact Ex.
Qed.

Lemma encode_while_inv lsb it : forall v s im st r,
  LSBEncoder.encode_while it m0 m1 lsb v s im = (st, r) ->
  shape_h (img st) = shape_h im /\ shape_w (img st) = shape_w im
  /\ R (buffer im) (buffer (img st)).
Proof using R_refl R_trans R_write.
  induction it as [|p it IH]; intros v s im st r H; cbn [LSBEncoder.encode_while] in H.
  - destruct (s =? 0); injection H as <- _; auto.
  - destruct (s =? 0); [injection H as <- _; auto|].
    destruct (LSBEncoder.encode_channels _ p m0 m1 lsb v s im)
      as [im1 [[v1 s1]|e1]] eqn:E.
    + apply encode_channels_inv in E. destruct E as (Hh & Hw & HR).
      apply IH in H. destruct H as (Hh' & Hw' & HR').
      repeat split; try congruence. eapply R_trans; eassumption.
    + apply encode_channels_inv in E. injection H as <- _. exact E.
Qed.

End LoopInvariant.

Lemma chan_kept_refl L x : chan_kept L x x.
Proof. split; auto. Qed.

Lemma chan_kept_trans L x y z : chan_kept L x y -> chan_kept L y z -> chan_kept L x z.
Proof. intros [H1 H2] [H3 H4]. split; [congruence | auto]. Qed.

Lemma chan_kept_write w L x v :
  1 <= w <= L -> L <= 8 -> chan_kept L x (merge (mask0 w) (mask1 w) x v).
Proof.
  intros Hw HL. split; [|apply merge_range; lia].
  unfold merge, mask0, mask1. apply Z.bits_inj'. intros i Hi.
  rewrite !Z.land_spec, Z.lor_spec, !Z.land_spec, !Z.lxor_spec.
  change 255 with (Z.ones 8). rewrite !Z.testbit_ones by lia.
  bool_cases; try lia; cbn;
    rewrite ?andb_true_r, ?andb_false_r, ?orb_false_r; reflexivity.
Qed.

Lemma kept_refl L buf : Forall2 (chan_kept L) buf buf.
Proof. induction buf; constructor; [apply chan_kept_refl | assumption]. Qed.

Lemma kept_trans L b1 : forall b2 b3,
  Forall2 (chan_kept L) b1 b2 -> Forall2 (chan_kept L) b2 b3 ->
  Forall2 (chan_kept L) b1 b3.
Proof.
  induction b1 as [|x b1 IH]; intros b2 b3 H12 H23.
  - inversion H12; subst. inversion H23; subst. constructor.
  - inversion H12; subst. inversion H23; subst. constructor.
    + eapply chan_kept_trans; eassumption.
    + eapply IH; eassumption.
Qed.

Lemma kept_write w L buf : forall o x v,
  1 <= w <= L -> L <= 8 -> buf !! o = Some x ->
  Forall2 (chan_kept L) buf (<[o := merge (mask0 w) (mask1 w) x v]> buf).
Proof.
  induction buf as [|y buf IH]; intros o x v Hw HL Ho; [discriminate|].
  destruct o as [|o].
  - rewrite lookup_head in Ho. injection Ho as ->. cbn [insert list_insert].
    constructor; [apply chan_kept_write; assumption | apply kept_refl].
  - rewrite lookup_tail in Ho. cbn [insert list_insert].
    constructor; [apply chan_kept_refl | apply IH; assumption].
Qed.

Lemma encode_data_kept w L v s st st' r :
  1 <= w <= L -> L <= 8 ->
  LSBEncoder._encode_data v s w st = (st', r) ->
  shape_h (img st') = shape_h (img st) /\ shape_w (img st') = shape_w (img st)
  /\ Forall2 (chan_kept L) (buffer (img st)) (buffer (img st')).
Proof.
  intros Hw HL. unfold LSBEncoder._encode_data.
  rewrite M_bind_lift, gen0mask_high, M_bind_lift, gen1mask_ones by lia.
  unfold LSBEncoder.encode_loop.
  apply (encode_while_inv (mask0 w) (mask1 w) (Forall2 (chan_kept L))).
  - apply kept_refl.
  - apply kept_trans.
  - intros buf o x v' Ho. apply kept_write; assumption.
Qed.

Lemma encode_fields_kept lsb prolog size v st st' r :
  1 <= lsb <= 8 ->
  encode_fields lsb prolog size v st = (st', r) ->
  shape_h (img st') = shape_h (img st) /\ shape_w (img st') = shape_w (img st)
  /\ Forall2 (chan_kept lsb) (buffer (img st)) (buffer (img st')).
Proof.
  intros Hl. unfold encode_fields, mbind, M_bind.
  destruct (LSBEncoder._encode_data prolog _ 1 st) as [st1 r1] eqn:E1.
  apply (encode_data_kept 1 lsb) in E1; [|lia|lia].
  destruct r1 as [[]|e1]; [|intros H; injection H as <- _; exact E1].
  destruct (LSBEncoder._encode_data (Z.of_nat size) _ lsb st1) as [st2 r2] eqn:E2.
  apply (encode_data_kept lsb lsb) in E2; [|lia|lia].
  assert (H12 : shape_h (img st2) = shape_h (img st) /\ shape_w (img st2) = shape_w (img st)
                /\ Forall2 (chan_kept lsb) (buffer (img st)) (buffer (img st2))).
  { destruct E1 as (? & ? & ?), E2 as (? & ? & ?).
    repeat split; try congruence. eapply kept_trans; eassumption. }
  destruct r2 as [[]|e2]; [|intros H; injection H as <- _; exact H12].
  intros E3. apply (encode_data_kept lsb lsb) in E3; [|lia|lia].
  destruct H12 as (? & ? & ?), E3 as (? & ? & ?).
  repeat split; try congruence. eapply kept_trans; eassumption.
Qed.

Lemma high_part x L :
  0 <= L <= 8 -> 0 <= x < 256 ->
  Z.land x (mask0 L) = x / 2 ^ L * 2 ^ L.
Proof.
  intros HL Hx. rewrite <- Z.shiftr_div_pow2, <- Z.shiftl_mul_pow2 by lia.
  unfold mask0. apply Z.bits_inj'. intros i Hi.
  rewrite Z.land_spec, Z.lxor_spec, Z.shiftl_spec by lia.
  change 255 with (Z.ones 8). rewrite !Z.testbit_ones by lia.
  assert (Hhigh : 8 <= i -> Z.testbit x i = false).
  { intros H8. destruct (Z.eq_dec x 0) as [->|Hne]; [apply Z.bits_0|].
    apply Z.bits_above_log2; [lia|].
    assert (Z.log2 x < 8) by (apply Z.log2_lt_pow2; [lia | change (2 ^ 8) with 256; lia]).
    lia. }
  destruct (Z.lt_ge_cases (i - L) 0) as [Hlo|Hhi].
  - rewrite (Z.testbit_neg_r _ (i - L)) by lia.
    bool_cases; try lia; cbn; rewrite ?andb_false_r; reflexivity.
  - rewrite Z.shiftr_spec by lia. replace (i - L + L) with i by lia.
    destruct (Z.lt_ge_cases i 8) as [H8|H8].
    + bool_cases; try lia; cbn; rewrite ?andb_true_r; reflexivity.
    + rewrite Hhigh by lia. reflexivity.
Qed.

Lemma chan_kept_div L x x' :
  1 <= L <= 8 -> 0 <= x < 256 -> chan_kept L x x' ->
  0 <= x' < 256 /\ x' / 2 ^ L = x / 2 ^ L.
Proof.
  intros HL Hx [Hland Hrange]. specialize (Hrange Hx). split; [exact Hrange|].
  rewrite !high_part in Hland by lia.
  apply Z.mul_reg_r in Hland; [exact Hland|]. apply Z.pow_nonzero; lia.
Qed.

(** X12.  Whatever its outcome, [encode] keeps the shape of the image and
    the length of its buffer, and an 8-bit channel stays 8-bit and keeps
    all its bits from bit [lsb_cnt] up: a channel changes by less than
    [2^lsb_cnt]. *)
Theorem encode_keeps_high_bits (im im' : image) (data : bytes) (lsb : Z)
    (xor_key : option bytes) (r : result unit) (i : nat) (x : Z)
    (Hlsb : 0 <= lsb)
    (Henc : LSBEncoder.encode im data lsb xor_key = (im', r))
    (Hx : buffer im !! i = Some x) (Hbyte : 0 <= x < 256) :
  shape_h im' = shape_h im /\ shape_w im' = shape_w im
  /\ length (buffer im') = length (buffer im)
  /\ exists x', buffer im' !! i = Some x'
                /\ 0 <= x' < 256
                /\ x' / 2 ^ lsb = x / 2 ^ lsb
                /\ Z.abs (x' - x) < 2 ^ lsb.
Proof.
  assert (Hsame : im' = im ->
            shape_h im' = shape_h im /\ shape_w im' = shape_w im
            /\ length (buffer im') = length (buffer im)
            /\ exists x', buffer im' !! i = Some x' /\ 0 <= x' < 256
                          /\ x' / 2 ^ lsb = x / 2 ^ lsb /\ Z.abs (x' - x) < 2 ^ lsb).
  { intros ->. split; [reflexivity|]. split; [reflexivity|]. split; [reflexivity|].
    exists x. split; [exact Hx|]. split; [exact Hbyte|]. split; [reflexivity|].
    rewrite Z.sub_diag. cbn. apply Z.pow_pos_nonneg; lia. }
  destruct (decide (1 <= lsb <= 8)) as [Hl|Hl];
    [|rewrite encode_invalid_lsb in Henc by exact Hl; injection Henc as <- _; auto].
  rewrite encode_run in Henc by exact Hl.
  destruct (Z.of_nat (length data) >? available_value im lsb);
    [injection Henc as <- _; auto|].
  destruct (LSBCodec.bytes_to_int (keyed data xor_key)) as [v|e];
    [|injection Henc as <- _; auto].
  cbv zeta in Henc.
  destruct (encode_fields lsb (prolog_of lsb xor_key) (length data) v
              (State im (LSBCodec.iter_pixels im))) as [st r'] eqn:Ef.
  cbn [fst snd] in Henc. injection Henc as <- _.
  apply encode_fields_kept in Ef; [|exact Hl]. cbn [img] in Ef.
  destruct Ef as (Hh & Hw & HR).
  split; [exact Hh|]. split; [exact Hw|].
  split; [symmetry; eapply Forall2_length; exact HR|].
  destruct (Forall2_lookup_l _ _ _ _ _ HR Hx) as (x' & Hx' & Hkept).
  exists x'. split; [exact Hx'|].
  destruct (chan_kept_div lsb x x' Hl Hbyte Hkept) as [Hr Hdiv].
  split; [exact Hr|]. split; [exact Hdiv|].
  assert (Hp : 0 < 2 ^ lsb) by (apply Z.pow_pos_nonneg; lia).
  pose proof (Z.div_mod x (2 ^ lsb) ltac:(lia)).
  pose proof (Z.div_mod x' (2 ^ lsb) ltac:(lia)).
  pose proof (Z.mod_pos_bound x (2 ^ lsb) Hp).
  pose proof (Z.mod_pos_bound x' (2 ^ lsb) Hp).
  rewrite Hdiv in *. lia.
Qed.

Lemma encode_keeps_high_bits_witness :
  exists im',
    LSBEncoder.encode (Image 2 5 (repeat 255 30)) [x41] 2 None = (im', Ok tt)
    /\ exists x', buffer im' !! 6%nat = Some x' /\ 0 <= x' < 256
                  /\ x' / 2 ^ 2 = 255 / 2 ^ 2 /\ Z.abs (x' - 255) < 2 ^ 2.
Proof.
  eexists. split; [vm_compute; reflexivity|].
  refine (proj2 (proj2 (proj2
            (encode_keeps_high_bits (Image 2 5 (repeat 255 30))
               _ [x41] 2 None _ 6 255 _ _ _ _)))).
  - lia.
  - vm_compute. reflexivity.
  - reflexivity.
  - lia.
Defined.

(** ** What [encode] writes, and what [decode] reads back *)

(** X13.  A completed [encode] writes only the channels of its three
    fields: the six prologue channels, the length chunks from channel 6
    on, and the payload chunks from the first pixel after the length.
    Every other channel, the unused channels at the end of a field's last
    pixel included, is exactly as before. *)
Theorem encode_writes_only_fields (im im' : image) (data : bytes) (lsb : Z)
    (xor_key : option bytes) (i : nat)
    (Hwf : wf_image im)
    (Henc : LSBEncoder.encode im data lsb xor_key = (im', Ok tt))
    (Hout : field_channel lsb (length data) i = false) :
  buffer im' !! i = buffer im !! i.
Proof.
  destruct (encode_ok_inv _ _ _ _ _ Hwf Henc) as (_ & _ & _ & _ & ->).
  cbn [with_buffer buffer]. unfold encoded_buffer.
  unfold field_channel in Hout.
  apply orb_false_iff in Hout as [Hout H3]. apply orb_false_iff in Hout as [H1 H2].
  apply Nat.ltb_ge in H1.
  pose proof (ceil3_bounds (len_chunks lsb)) as Hc.
  assert (Hlen2 : (6 + len_chunks lsb <= i)%nat).
  { apply andb_false_iff in H2 as [H2|H2];
      [apply Nat.leb_gt in H2; lia | apply Nat.ltb_ge in H2; exact H2]. }
  apply andb_false_iff in H3 as [H3|H3].
  - apply Nat.leb_gt in H3.
    rewrite lookup_write_chunks_lt by exact H3.
    rewrite lookup_write_chunks_ge by exact Hlen2.
    apply lookup_write_chunks_ge. lia.
  - apply Nat.ltb_ge in H3.
    rewrite lookup_write_chunks_ge by exact H3.
    rewrite lookup_write_chunks_ge by exact Hlen2.
    apply lookup_write_chunks_ge. lia.
Qed.

Lemma encode_writes_only_fields_witness :
  exists im',
    LSBEncoder.encode (Image 2 5 (repeat 255 30)) [x41] 2 None = (im', Ok tt)
    /\ field_channel 2 (length [x41]) 23 = false
    /\ buffer im' !! 23%nat = Some 255.
Proof.
  eexists. split; [vm_compute; reflexivity|]. split; [reflexivity|].
  refine (encode_writes_only_fields (Image 2 5 (repeat 255 30)) _ [x41] 2 None 23 _ _ _).
  - reflexivity.
  - vm_compute. reflexivity.
  - reflexivity.
Defined.

(** X14.  The two loops are inverse to each other at every width from 0
    to 8: on an image with at least [ceil(n / 3)] pixels, [_decode_data]
    with [n] chunks, run from a fresh generator on what [_encode_data]
    wrote from a fresh generator, returns the value modulo
    [2^(n * lsb_cnt)]; both leave the generator [ceil(n / 3)] pixels
    further, so whole pixels are consumed. *)
Theorem pack_unpack_roundtrip (im : image) (v : Z) (n : nat) (lsb : Z)
    (Hwf : wf_image im) (Hlsb : 0 <= lsb <= 8)
    (Hpix : (ceil3 n <= shape_h im * shape_w im)%nat) :
  exists im',
    LSBEncoder._encode_data v (Z.of_nat n) lsb (State im (LSBCodec.iter_pixels im))
    = (State im' (drop (ceil3 n) (LSBCodec.iter_pixels im)), Ok tt)
    /\ LSBDecoder._decode_data (Z.of_nat n) lsb (State im' (LSBCodec.iter_pixels im'))
       = (State im' (drop (ceil3 n) (LSBCodec.iter_pixels im')),
          Ok (v mod 2 ^ (Z.of_nat n * lsb))).
Proof.
  pose proof (at_pixel_iter_pixels im Hwf) as Hat.
  pose proof (iter_pixels_length im Hwf) as Hlen.
  pose proof (ceil3_bounds n) as Hc.
  assert (Hbuf : length (buffer im) = (3 * (shape_h im * shape_w im))%nat)
    by (unfold wf_image in Hwf; change (Z.to_nat CHAN_CNT) with 3%nat in Hwf; lia).
  eexists. split.
  - rewrite (encode_data_ok v n lsb _ 0) by (cbn [img piter]; assumption || lia).
    cbn [img piter]. reflexivity.
  - set (B := write_chunks (mask0 lsb) (mask1 lsb) lsb n (3 * 0) v (buffer im)).
    assert (Hwf' : wf_image (with_buffer im B))
      by (apply wf_with_buffer; [exact Hwf | apply write_chunks_length]).
    rewrite (decode_data_ok n lsb _ 0);
      [| exact Hlsb | apply at_pixel_iter_pixels; exact Hwf'
       | cbn [piter]; rewrite iter_pixels_length by exact Hwf'; exact Hpix].
    cbn [img piter buffer with_buffer]. do 2 f_equal.
    unfold B, mask0, mask1. rewrite read_write_chunks by lia.
    rewrite Z.mul_0_l, Z.shiftl_0_r, Z.lor_0_l.
    apply Z.land_ones. lia.
Qed.

Lemma pack_unpack_roundtrip_witness :
  exists im',
    LSBEncoder._encode_data 300 (Z.of_nat 4) 2 (State (zeros 1 2) (LSBCodec.iter_pixels (zeros 1 2)))
    = (State im' (drop (ceil3 4) (LSBCodec.iter_pixels (zeros 1 2))), Ok tt)
    /\ LSBDecoder._decode_data (Z.of_nat 4) 2 (State im' (LSBCodec.iter_pixels im'))
       = (State im' (drop (ceil3 4) (LSBCodec.iter_pixels im')),
          Ok (300 mod 2 ^ (Z.of_nat 4 * 2))).
Proof.
  refine (pack_unpack_roundtrip (zeros 1 2) 300 4 2 _ _ _).
  - reflexivity.
  - lia.
  - vm_compute. lia.
Defined.

Lemma length_field_bits_dividing lsb :
  lsb = 1 \/ lsb = 2 \/ lsb = 4 -> length_field_bits lsb = 32.
Proof. intros [-> | [-> | ->]]; reflexivity. Qed.

(** X15.  Round trip at the widths 1, 2 and 4: a non-empty payload shorter
    than 2^32 bytes that passes the capacity check, with no key or a
    non-empty one, on an image with the pixels the three fields need, is
    encoded to completion, and [decode] with the same key returns it. *)
Theorem roundtrip_at_widths_1_2_4 (im : image) (data : bytes) (lsb : Z)
    (xor_key : option bytes)
    (Hwf : wf_image im) (Hlsb : lsb = 1 \/ lsb = 2 \/ lsb = 4)
    (Hd : data <> []) (Hk : xor_key <> Some [])
    (Hs : Z.of_nat (length data) <= available_value im lsb)
    (Hpix : (pixels_needed lsb (length data) <= shape_h im * shape_w im)%nat)
    (Hfit : Z.of_nat (length data) < 2 ^ 32) :
  exists im',
    LSBEncoder.encode im data lsb xor_key = (im', Ok tt)
    /\ LSBDecoder.decode im' xor_key = Ok data.
Proof.
  assert (Hl : 1 <= lsb <= 8) by lia.
  pose proof (keyed_nonempty data xor_key Hd Hk) as Hne.
  eexists. split; [apply encode_ok; assumption|].
  pose proof (keyed_length _ _ Hne) as Hlen.
  pose proof (be_int_range (keyed data xor_key)) as Hv.
  assert (Hsz : (1 <= length data)%nat) by (destruct data; [congruence | cbn; lia]).
  pose proof (length_field_bits_dividing lsb Hlsb) as Hbits.
  unfold length_field_bits in Hbits.
  rewrite decode_encoded by (try rewrite Hbits; assumption || lia).
  rewrite <- Hlen, recovered_dividing by exact Hlsb.
  clear - Hk. destruct xor_key as [key|]; [|reflexivity].
  cbn [keyed]. rewrite xor_invol; [reflexivity|].
  intros E. apply Hk. rewrite E. reflexivity.
Qed.

Lemma roundtrip_at_widths_1_2_4_witness :
  exists im',
    LSBEncoder.encode (zeros 4 6) [x00; x42; x43] 1 (Some [x07; x09]) = (im', Ok tt)
    /\ LSBDecoder.decode im' (Some [x07; x09]) = Ok [x00; x42; x43].
Proof.
  refine (roundtrip_at_widths_1_2_4 (zeros 4 6) [x00; x42; x43] 1 (Some [x07; x09])
            _ _ _ _ _ _ _).
  - reflexivity.
  - left. reflexivity.
  - discriminate.
  - discriminate.
  - vm_compute. discriminate.
  - vm_compute. lia.
  - vm_compute. reflexivity.
Defined.

(** X16.  At every width from 1 to 7, what [decode] with the same key
    returns from an image [encode] completed on is the packed payload value
    reduced modulo [2^(lsb_cnt * (8 * size // lsb_cnt))], turned back into
    [size] bytes and un-keyed: at a width that does not divide 8 the top
    [8 * size mod lsb_cnt] bits of the (keyed) payload come back as zero. *)
Theorem decode_returns_low_bits (im im' : image) (data : bytes) (lsb : Z)
    (xor_key : option bytes)
    (Hwf : wf_image im) (Hlsb : 1 <= lsb <= 7) (Hk : xor_key <> Some [])
    (Hfit : Z.of_nat (length data) < 2 ^ length_field_bits lsb)
    (Henc : LSBEncoder.encode im data lsb xor_key = (im', Ok tt)) :
  exists v out,
    LSBCodec.bytes_to_int (keyed data xor_key) = Ok v
    /\ LSBCodec.int_to_bytes
         (v mod 2 ^ (Z.of_nat (length data) * CHAN_SIZE / lsb * lsb))
         (Z.of_nat (length data)) = Ok out
    /\ LSBDecoder.decode im' xor_key = Ok (keyed out xor_key).
Proof.
  destruct (encode_ok_inv _ _ _ _ _ Hwf Henc) as (_ & _ & Hne & Hpix & ->).
  pose proof (keyed_length _ _ Hne) as Hlen.
  pose proof (be_int_range (keyed data xor_key)) as Hv.
  assert (Hsz : (1 <= length data)%nat)
    by (rewrite <- Hlen; destruct (keyed data xor_key); [congruence | cbn; lia]).
  assert (Hbits : Z.of_nat (data_chunks lsb (length data)) * lsb
                  = Z.of_nat (length data) * CHAN_SIZE / lsb * lsb).
  { unfold data_chunks. rewrite Z2Nat.id; [reflexivity|].
    apply Z.div_pos; unfold CHAN_SIZE; lia. }
  pose proof (data_bits_le lsb (length data) ltac:(lia)) as Hle.
  assert (Hnn : 0 <= Z.of_nat (data_chunks lsb (length data)) * lsb)
    by (apply Z.mul_nonneg_nonneg; lia).
  exists (be_int (keyed data xor_key)),
         (recovered lsb (length data) (be_int (keyed data xor_key))).
  split; [apply bytes_to_int_spec; exact Hne|]. split.
  - rewrite <- Hbits. unfold recovered. rewrite Z.land_ones by exact Hnn.
    apply int_to_bytes_spec; [|exact Hsz].
    pose proof (Z.mod_pos_bound (be_int (keyed data xor_key))
                  (2 ^ (Z.of_nat (data_chunks lsb (length data)) * lsb))
                  ltac:(apply Z.pow_pos_nonneg; lia)) as Hm.
    rewrite pow_256. split; [lia|].
    eapply Z.lt_le_trans; [apply Hm|]. apply Z.pow_le_mono_r; lia.
  - unfold length_field_bits in Hfit.
    rewrite decode_encoded by (assumption || lia).
    destruct xor_key as [key|]; reflexivity.
Qed.

Lemma decode_returns_low_bits_witness :
  exists im',
    LSBEncoder.encode (zeros 2 4) [xff] 3 None = (im', Ok tt)
    /\ exists v out,
         LSBCodec.bytes_to_int (keyed [xff] None) = Ok v
         /\ LSBCodec.int_to_bytes
              (v mod 2 ^ (Z.of_nat (length [xff]) * CHAN_SIZE / 3 * 3))
              (Z.of_nat (length [xff])) = Ok out
         /\ LSBDecoder.decode im' None = Ok (keyed out None).
Proof.
  eexists. split; [vm_compute; reflexivity|].
  refine (decode_returns_low_bits (zeros 2 4) _ [xff] 3 None _ _ _ _ _).
  - reflexivity.
  - lia.
  - discriminate.
  - vm_compute. reflexivity.
  - vm_compute. reflexivity.
Defined.

(** ** [decode] on any image *)

Lemma lt_pow2_of_bits x k :
  0 <= k -> (forall i, k <= i -> Z.testbit x i = false) -> 0 <= x < 2 ^ k.
Proof.
  intros Hk Hx. assert (H0 : 0 <= x).
  { destruct (Z.lt_ge_cases x 0) as [Hn|]; [|assumption].
    destruct (Z.bits_iff_neg_ex x) as [Hex _]. destruct (Hex Hn) as [j Hj].
    specialize (Hj (Z.max (j + 1) k) ltac:(lia)).
    rewrite Hx in Hj by lia. discriminate. }
  split; [exact H0|]. destruct (Z.eq_dec x 0) as [->|Hne]; [apply Z.pow_pos_nonneg; lia|].
  apply Z.log2_lt_pow2; [lia|].
  destruct (Z.lt_ge_cases (Z.log2 x) k) as [|Hge]; [assumption|].
  pose proof (Z.bit_log2 x ltac:(lia)) as Hbit. rewrite Hx in Hbit by lia.
  discriminate.
Qed.

Lemma bits_of_lt_pow2 x k i :
  0 <= x < 2 ^ k -> k <= i -> Z.testbit x i = false.
Proof.
  intros Hx Hi. destruct (Z.eq_dec x 0) as [->|Hne]; [apply Z.bits_0|].
  apply Z.bits_above_log2; [lia|].
  destruct (Z.lt_ge_cases k 0) as [Hk|Hk]; [rewrite Z.pow_neg_r in Hx by lia; lia|].
  assert (Z.log2 x < k) by (apply Z.log2_lt_pow2; lia). lia.
Qed.

(** What the unpacking loop accumulates stays below [2^((pos + n) * lsb)]. *)
Lemma read_chunks_range lsb buf n : forall off pos acc,
  0 <= lsb -> 0 <= pos -> 0 <= acc < 2 ^ (pos * lsb) ->
  0 <= read_chunks (Z.ones lsb) lsb n off pos acc buf < 2 ^ ((pos + Z.of_nat n) * lsb).
Proof.
  induction n as [|n IH]; intros off pos acc Hl Hp Hacc.
  - cbn [read_chunks Z.of_nat]. rewrite Z.add_0_r. exact Hacc.
  - cbn [read_chunks].
    replace ((pos + Z.of_nat (S n)) * lsb) with ((pos + 1 + Z.of_nat n) * lsb) by lia.
    apply IH; [exact Hl | lia |].
    apply lt_pow2_of_bits; [nia|]. intros i Hi.
    rewrite Z.lor_spec, Z.shiftl_spec, Z.land_spec, Z.testbit_ones by nia.
    rewrite (bits_of_lt_pow2 acc (pos * lsb) i) by (assumption || nia).
    destruct (Z.ltb_spec (i - pos * lsb) lsb); [nia|].
    rewrite !andb_false_r. reflexivity.
Qed.

Lemma read_chunks_bound lsb buf n off :
  0 <= lsb ->
  0 <= read_chunks (mask1 lsb) lsb n off 0 0 buf < 2 ^ (Z.of_nat n * lsb).
Proof.
  intros Hl. unfold mask1.
  pose proof (read_chunks_range lsb buf n off 0 0 Hl ltac:(lia)) as H.
  rewrite Z.mul_0_l in H. cbn [Z.add] in H. apply H. cbn. lia.
Qed.

Lemma header_check_inv p w : header_check p = Ok w -> 1 <= w <= 7 /\ w = Z.land p 7.
Proof.
  unfold header_check, try_except.
  destruct (negb _); [discriminate|].
  unfold lsb_check, CHAN_SIZE.
  destruct (Z.gtb_spec (Z.land p 7) 8) as [Hgt|Hgt]; [discriminate|].
  destruct (Z.leb_spec (Z.land p 7) 0) as [Hle|Hle]; [discriminate|].
  intros Hok. injection Hok as <-. split; [|reflexivity].
  assert (Hmod : Z.land p 7 = p mod 8) by (apply (Z.land_ones p 3); lia).
  pose proof (Z.mod_pos_bound p 8 ltac:(lia)). lia.
Qed.

Lemma header_check_exn p e : header_check p = Raise e -> e = ValueError.
Proof.
  unfold header_check, try_except.
  destruct (negb _); [intros H; injection H as <-; reflexivity|].
  unfold lsb_check. destruct (_ || _)%bool; [intros H; injection H as <-; reflexivity|].
  discriminate.
Qed.

Section DecodeRun.

Variable im : image.
Hypothesis Hwf : wf_image im.

Let it0 := LSBCodec.iter_pixels im.
Let P := (shape_h im * shape_w im)%nat.

Lemma prolog_run :
  LSBDecoder._decode_data (PROLOG_SIZE * CHAN_CNT) 1 (State im it0) =
  if decide (2 <= P)%nat
  then (State im (drop 2 it0), Ok (stored_prolog im))
  else (State im [], Raise StopIteration).
Proof using Hwf.
  change (PROLOG_SIZE * CHAN_CNT) with (Z.of_nat 6).
  rewrite (decode_data_spec 6 1 _ 0);
    [| lia | apply at_pixel_iter_pixels; exact Hwf].
  pose proof (iter_pixels_length im Hwf) as Hlen0. fold it0 in Hlen0.
  cbn [img piter]. rewrite Hlen0.
  change (ceil3 6) with 2%nat. reflexivity.
Qed.

Lemma length_run w :
  1 <= w <= 8 -> (2 <= P)%nat ->
  LSBDecoder._decode_data (Z.of_nat (len_chunks w)) w (State im (drop 2 it0)) =
  if decide (2 + ceil3 (len_chunks w) <= P)%nat
  then (State im (drop (2 + ceil3 (len_chunks w)) it0), Ok (stored_length im w))
  else (State im [], Raise StopIteration).
Proof using Hwf.
  intros Hw HP.
  pose proof (at_pixel_iter_pixels im Hwf) as Hat0.
  pose proof (iter_pixels_length im Hwf) as Hlen0. fold it0 in Hat0, Hlen0.
  rewrite (decode_data_spec _ w _ 2);
    [| lia | apply (at_pixel_drop 2 _ _ 0 Hat0); fold P in Hlen0; lia].
  cbn [img piter]. rewrite length_drop, Hlen0, drop_drop. fold P.
  destruct (decide (ceil3 (len_chunks w) <= P - 2)%nat);
    destruct (decide (2 + ceil3 (len_chunks w) <= P)%nat); try lia; reflexivity.
Qed.

Lemma payload_run w n :
  1 <= w <= 8 -> (2 + ceil3 (len_chunks w) <= P)%nat ->
  LSBDecoder._decode_data (Z.of_nat n) w
    (State im (drop (2 + ceil3 (len_chunks w)) it0)) =
  if decide (2 + ceil3 (len_chunks w) + ceil3 n <= P)%nat
  then (State im (drop (2 + ceil3 (len_chunks w) + ceil3 n) it0),
        Ok (read_chunks (mask1 w) w n (3 * (2 + ceil3 (len_chunks w))) 0 0 (buffer im)))
  else (State im [], Raise StopIteration).
Proof using Hwf.
  intros Hw HP.
  pose proof (at_pixel_iter_pixels im Hwf) as Hat0.
  pose proof (iter_pixels_length im Hwf) as Hlen0. fold it0 in Hat0, Hlen0.
  rewrite (decode_data_spec _ w _ (2 + ceil3 (len_chunks w)));
    [| lia | apply (at_pixel_drop _ _ _ 0 Hat0); fold P in Hlen0; lia].
  cbn [img piter]. rewrite length_drop, Hlen0, drop_drop. fold P.
  destruct (decide (ceil3 n <= P - (2 + ceil3 (len_chunks w)))%nat);
    destruct (decide (2 + ceil3 (len_chunks w) + ceil3 n <= P)%nat); try lia; reflexivity.
Qed.

(** [decode], field by field, on a well-formed image. *)
Lemma decode_run xor_key :
  LSBDecoder.decode im xor_key =
  if decide (2 <= P)%nat then
    match header_check (stored_prolog im) with
    | Raise e => Raise e
    | Ok w =>
        if (Z.land (stored_prolog im) 248 =? LSBCodec.XOR_Y)
           && (if xor_key is None then true else false)
        then Raise MissingXOR
        else if decide (announced_pixels im w <= P)%nat then
          match LSBCodec.int_to_bytes (stored_payload im w) (stored_length im w) with
          | Raise e => Raise e
          | Ok data =>
              if Z.land (stored_prolog im) 248 =? LSBCodec.XOR_Y
              then match xor_key with
                   | Some key => Ok (LSBCodec.xor data key)
                   | None => Raise TypeError
                   end
              else Ok data
          end
        else Raise StopIteration
    end
  else Raise StopIteration.
Proof using Hwf.
  unfold LSBDecoder.decode, LSBDecoder.decode_m.
  rewrite (M_bind_eq new_piter _ _ _ (Ok tt) eq_refl). cbn [img]. fold it0.
  change (LSBCodec.gen0mask CHAN_CNT) with (@Ok Z 248).
  change (LSBCodec.gen1mask CHAN_CNT) with (@Ok Z 7).
  rewrite !M_bind_lift.
  pose proof prolog_run as Hp.
  destruct (decide (2 <= P)%nat) as [HP|HP];
    rewrite (M_bind_eq _ _ _ _ _ Hp); [|reflexivity].
  rewrite M_bind_lift. fold (header_check (stored_prolog im)).
  destruct (header_check (stored_prolog im)) as [w|e] eqn:Eh; [|reflexivity].
  destruct (header_check_inv _ _ Eh) as [Hw _].
  destruct ((Z.land (stored_prolog im) 248 =? LSBCodec.XOR_Y)
            && (if xor_key is None then true else false)); [reflexivity|].
  rewrite M_bind_lift, (floordiv_chunks _ w) by (unfold LEN_SIZE, CHAN_SIZE; lia).
  fold (len_chunks w).
  pose proof (length_run w ltac:(lia) HP) as Hlr.
  unfold announced_pixels.
  destruct (decide (2 + ceil3 (len_chunks w) <= P)%nat) as [HL|HL];
    rewrite (M_bind_eq _ _ _ _ _ Hlr).
  2:{ destruct (decide _) as [Hbad|_]; [lia | reflexivity]. }
  pose proof (read_chunks_bound w (buffer im) (len_chunks w) 6 ltac:(lia)) as Hsz.
  fold (stored_length im w) in Hsz.
  rewrite M_bind_lift, (floordiv_chunks _ w) by (unfold CHAN_SIZE; lia).
  pose proof (payload_run w (Z.to_nat (stored_length im w * CHAN_SIZE / w))
                ltac:(lia) HL) as Hpr.
  destruct (decide _) as [Hn|Hn]; rewrite (M_bind_eq _ _ _ _ _ Hpr); [|reflexivity].
  rewrite M_bind_lift. fold (stored_payload im w).
  destruct (LSBCodec.int_to_bytes (stored_payload im w) (stored_length im w)) as [data|e];
    [|reflexivity].
  destruct (Z.land (stored_prolog im) 248 =? LSBCodec.XOR_Y); [|reflexivity].
  destruct xor_key; reflexivity.
Qed.

(** [read_fields], the same way. *)
Lemma read_fields_run w :
  (2 <= P)%nat -> 1 <= w <= 7 -> w = Z.land (stored_prolog im) 7 ->
  (2 + ceil3 (len_chunks w) <= P)%nat ->
  read_fields im = Ok (Z.land (stored_prolog im) 248, w, stored_length im w).
Proof using Hwf.
  intros HP Hw Ew HL. unfold read_fields. fold it0.
  pose proof prolog_run as Hp.
  destruct (decide (2 <= P)%nat); [|lia].
  rewrite (M_bind_eq _ _ _ _ _ Hp). cbv zeta. rewrite <- Ew.
  rewrite M_bind_lift, (floordiv_chunks _ w) by (unfold LEN_SIZE, CHAN_SIZE; lia).
  fold (len_chunks w).
  pose proof (length_run w ltac:(lia) HP) as Hlr.
  destruct (decide (2 + ceil3 (len_chunks w) <= P)%nat); [|lia].
  rewrite (M_bind_eq _ _ _ _ _ Hlr). reflexivity.
Qed.

End DecodeRun.

Lemma land_1_cases x : Z.land x 1 = 0 \/ Z.land x 1 = 1.
Proof.
  assert (H : Z.land x 1 = x mod 2) by (apply (Z.land_ones x 1); lia).
  pose proof (Z.mod_pos_bound x 2 ltac:(lia)). lia.
Qed.

Lemma stored_prolog_bits im :
  stored_prolog im
  = Z.lor (Z.lor (Z.lor (Z.lor (Z.lor (Z.lor 0
      (Z.shiftl (chan_bit im 0) 0)) (Z.shiftl (chan_bit im 1) 1))
      (Z.shiftl (chan_bit im 2) 2)) (Z.shiftl (chan_bit im 3) 3))
      (Z.shiftl (chan_bit im 4) 4)) (Z.shiftl (chan_bit im 5) 5).
Proof. reflexivity. Qed.

(** X17.  Header validation, on any image whose buffer matches its shape.
    With fewer than two pixels [decode] raises [StopIteration].  Otherwise
    the low bits of channels 3, 4, 5 are the key flag and those of
    channels 0, 1, 2 the width: when the three flag bits are not all
    equal, or the three width bits are all zero, [decode] raises
    [ValueError], with any key or none. *)
Theorem decode_header_validation (im : image) (xor_key : option bytes)
    (Hwf : wf_image im) :
  ((shape_h im * shape_w im < 2)%nat ->
   LSBDecoder.decode im xor_key = Raise StopIteration)
  /\ ((2 <= shape_h im * shape_w im)%nat ->
      ~ (chan_bit im 3 = chan_bit im 4 /\ chan_bit im 4 = chan_bit im 5)
      \/ (chan_bit im 0 = 0 /\ chan_bit im 1 = 0 /\ chan_bit im 2 = 0) ->
      LSBDecoder.decode im xor_key = Raise ValueError).
Proof.
  rewrite (decode_run im Hwf). split.
  - intros HP. destruct (decide _); [lia | reflexivity].
  - intros HP Hbad. destruct (decide _); [|lia].
    assert (Hh : header_check (stored_prolog im) = Raise ValueError).
    { rewrite stored_prolog_bits. unfold chan_bit in *.
      destruct (land_1_cases (default 0 (buffer im !! 0%nat))) as [E0|E0];
      destruct (land_1_cases (default 0 (buffer im !! 1%nat))) as [E1|E1];
      destruct (land_1_cases (default 0 (buffer im !! 2%nat))) as [E2|E2];
      destruct (land_1_cases (default 0 (buffer im !! 3%nat))) as [E3|E3];
      destruct (land_1_cases (default 0 (buffer im !! 4%nat))) as [E4|E4];
      destruct (land_1_cases (default 0 (buffer im !! 5%nat))) as [E5|E5];
      rewrite E0, E1, E2, E3, E4, E5 in *; try reflexivity;
      exfalso; destruct Hbad as [Hb | (H0 & H1 & H2)];
      try discriminate; apply Hb; split; reflexivity. }
    rewrite Hh. reflexivity.
Qed.

Lemma decode_header_validation_witness :
  wf_image (Image 1 2 [1; 0; 0; 1; 0; 1])
  /\ LSBDecoder.decode (Image 1 2 [1; 0; 0; 1; 0; 1]) None = Raise ValueError.
Proof.
  assert (Hwf : wf_image (Image 1 2 [1; 0; 0; 1; 0; 1])) by reflexivity.
  split; [exact Hwf|].
  apply (proj2 (decode_header_validation (Image 1 2 [1; 0; 0; 1; 0; 1]) None Hwf)).
  - vm_compute. lia.
  - left. intros [H _]. vm_compute in H. discriminate H.
Defined.

(** *** Exceptions [decode] can raise *)

Lemma decode_channels_exn cs im p m1 lsb : forall v pos s e,
  LSBDecoder.decode_channels cs im p m1 lsb v pos s = Raise e -> e = IndexError.
Proof.
  induction cs as [|c cs IH]; intros v pos s e H; cbn [LSBDecoder.decode_channels] in H.
  - discriminate.
  - destruct (s =? 0); [discriminate|].
    unfold get_chan in H.
    destruct (buffer im !! offset im p c); cbn [mbind result_bind] in H; [|congruence].
    eapply IH. exact H.
Qed.

Lemma decode_while_exn im m1 lsb it : forall v pos s st e,
  LSBDecoder.decode_while it im m1 lsb v pos s = (st, Raise e) -> loop_exn e = true.
Proof.
  induction it as [|p it IH]; intros v pos s st e H; cbn [LSBDecoder.decode_while] in H.
  - destruct (s =? 0); [discriminate|]. injection H as _ <-. reflexivity.
  - destruct (s =? 0); [discriminate|].
    destruct (LSBDecoder.decode_channels _ im p m1 lsb v pos s) as [[[v1 p1] s1]|e1] eqn:E.
    + eapply IH. exact H.
    + apply decode_channels_exn in E. injection H as _ <-. subst e1. reflexivity.
Qed.

Lemma decode_data_exn s lsb st st' e :
  LSBDecoder._decode_data s lsb st = (st', Raise e) -> loop_exn e = true.
Proof.
  unfold LSBDecoder._decode_data. rewrite M_bind_lift.
  unfold LSBCodec.gen0mask.
  destruct (LSBCodec.gen1mask CHAN_SIZE) as [a|e0] eqn:E0; cbn [mbind result_bind].
  2:{ intros H. injection H as _ <-. apply gen1mask_exn in E0. subst. reflexivity. }
  destruct (LSBCodec.gen1mask lsb) as [b|e1] eqn:E1; cbn [mbind result_bind].
  2:{ intros H. injection H as _ <-. apply gen1mask_exn in E1. subst. reflexivity. }
  rewrite M_bind_lift. unfold LSBDecoder.decode_loop. apply decode_while_exn.
Qed.

Lemma unhexlify_exn s e : unhexlify s = Raise e -> e = BinasciiError.
Proof.
  revert e.
  assert (H : forall s,
             (forall e, unhexlify s = Raise e -> e = BinasciiError)
             /\ (forall c e, unhexlify (c :: s) = Raise e -> e = BinasciiError)).
  { clear s. induction s as [|lo s [IH0 IH1]].
    - split; [discriminate|]. intros c e H. cbn in H. congruence.
    - split; [apply IH1|]. intros hi e H. cbn [unhexlify] in H.
      destruct (hex_val hi); [|congruence].
      destruct (hex_val lo); [|congruence].
      destruct (unhexlify s) as [rest|e0] eqn:E; cbn [mbind result_bind] in H;
        [discriminate|].
      apply IH0. congruence. }
  apply H.
Qed.

Lemma floordiv_exn a b e : floordiv a b = Raise e -> e = ZeroDivisionError.
Proof. unfold floordiv. destruct (b =? 0); congruence. Qed.

(** [decode] raises nothing but what its loops, its header check, its two
    divisions and [int_to_bytes] raise, [MissingXOR], and the [TypeError]
    of [xor] on a missing key. *)
Lemma decode_exn im xor_key e :
  LSBDecoder.decode im xor_key = Raise e ->
  loop_exn e = true \/ e = ValueError \/ e = MissingXOR \/ e = ZeroDivisionError
  \/ e = BinasciiError \/ e = TypeError.
Proof.
  unfold LSBDecoder.decode, LSBDecoder.decode_m.
  rewrite (M_bind_eq new_piter _ _ _ (Ok tt) eq_refl). cbn [img].
  change (LSBCodec.gen0mask CHAN_CNT) with (@Ok Z 248).
  change (LSBCodec.gen1mask CHAN_CNT) with (@Ok Z 7).
  rewrite !M_bind_lift.
  destruct (LSBDecoder._decode_data (PROLOG_SIZE * CHAN_CNT) 1
              (State im (LSBCodec.iter_pixels im))) as [st1 [p|e1]] eqn:E1;
    rewrite (M_bind_eq _ _ _ _ _ E1).
  2:{ intros H. injection H as <-. left. eapply decode_data_exn. exact E1. }
  rewrite M_bind_lift. fold (header_check p).
  destruct (header_check p) as [w|e2] eqn:E2.
  2:{ intros H. injection H as <-. right. left. eapply header_check_exn. exact E2. }
  destruct (_ && _)%bool.
  { intros H. injection H as <-. auto. }
  rewrite M_bind_lift.
  destruct (floordiv (LEN_SIZE * CHAN_SIZE) w) as [n|e3] eqn:E3.
  2:{ intros H. injection H as <-. apply floordiv_exn in E3. auto. }
  destruct (LSBDecoder._decode_data n w st1) as [st2 [size|e4]] eqn:E4;
    rewrite (M_bind_eq _ _ _ _ _ E4).
  2:{ intros H. injection H as <-. left. eapply decode_data_exn. exact E4. }
  rewrite M_bind_lift.
  destruct (floordiv (size * CHAN_SIZE) w) as [n'|e5] eqn:E5.
  2:{ intros H. injection H as <-. apply floordiv_exn in E5. auto. }
  destruct (LSBDecoder._decode_data n' w st2) as [st3 [v|e6]] eqn:E6;
    rewrite (M_bind_eq _ _ _ _ _ E6).
  2:{ intros H. injection H as <-. left. eapply decode_data_exn. exact E6. }
  rewrite M_bind_lift.
  destruct (LSBCodec.int_to_bytes v size) as [out|e7] eqn:E7.
  2:{ intros H. injection H as <-. apply unhexlify_exn in E7. auto 6. }
  destruct (_ =? _); [|discriminate].
  destruct xor_key as [key|]; [discriminate|].
  intros H. injection H as <-. auto 6.
Qed.

(** X18.  The key only matters when the prologue flags one, and
    [UnexpectedXOR] is never raised.  On any image, either [decode]
    without a key raises [MissingXOR], or [decode] with a key returns or
    raises exactly what [decode] without one does; and whatever the key
    argument, a bytes object or [None], [decode] does not raise
    [UnexpectedXOR]. *)
Theorem decode_ignores_unflagged_key (im : image) (key : bytes) :
  (LSBDecoder.decode im None = Raise MissingXOR
   \/ LSBDecoder.decode im (Some key) = LSBDecoder.decode im None)
  /\ (forall xor_key : option bytes,
        LSBDecoder.decode im xor_key <> Raise UnexpectedXOR).
Proof.
  split.
  - unfold LSBDecoder.decode, LSBDecoder.decode_m.
    rewrite !(M_bind_eq new_piter _ _ _ (Ok tt) eq_refl). cbn [img].
    change (LSBCodec.gen0mask CHAN_CNT) with (@Ok Z 248).
    change (LSBCodec.gen1mask CHAN_CNT) with (@Ok Z 7).
    rewrite !M_bind_lift.
    destruct (LSBDecoder._decode_data (PROLOG_SIZE * CHAN_CNT) 1
                (State im (LSBCodec.iter_pixels im))) as [st1 [p|e]] eqn:E;
      rewrite !(M_bind_eq _ _ _ _ _ E); [|right; reflexivity].
    rewrite !M_bind_lift.
    destruct (try_except _ _ _) as [w|e]; [|right; reflexivity].
    destruct (Z.land p 248 =? LSBCodec.XOR_Y) eqn:Ef.
    + left. reflexivity.
    + right. reflexivity.
  - intros xor_key H. apply decode_exn in H.
    destruct H as [H|[H|[H|[H|[H|H]]]]]; discriminate H.
Qed.

Lemma int_to_bytes_zero_size v :
  0 <= v < 1 -> LSBCodec.int_to_bytes v 0 = Raise BinasciiError.
Proof. intros H. assert (v = 0) by lia. subst v. reflexivity. Qed.

(** X19.  What a completed [decode] tells about the image: if [decode]
    returns bytes (with no key or a non-empty one), then the header fields
    can be read, the length field holds at least 1, exactly that many bytes
    are returned (an empty payload is never returned: a zero length field
    makes [int_to_bytes] fail), and the image has the pixels that length
    calls for. *)
Theorem decode_returns_length_field_bytes (im : image) (xor_key : option bytes)
    (out : bytes)
    (Hwf : wf_image im) (Hk : xor_key <> Some [])
    (Hdec : LSBDecoder.decode im xor_key = Ok out) :
  exists flag w,
    read_fields im = Ok (flag, w, Z.of_nat (length out))
    /\ 1 <= w <= 7
    /\ (1 <= length out)%nat
    /\ (pixels_needed w (length out) <= shape_h im * shape_w im)%nat.
Proof.
  rewrite (decode_run im Hwf) in Hdec.
  destruct (decide (2 <= shape_h im * shape_w im)%nat) as [HP|HP]; [|discriminate].
  destruct (header_check (stored_prolog im)) as [w|e] eqn:Eh; [|discriminate].
  destruct (header_check_inv _ _ Eh) as [Hw Ew].
  destruct (_ && _)%bool; [discriminate|].
  destruct (decide (announced_pixels im w <= shape_h im * shape_w im)%nat) as [Hpix|Hpix];
    [|discriminate].
  unfold announced_pixels in Hpix.
  pose proof (read_chunks_bound w (buffer im) (len_chunks w) 6 ltac:(lia)) as Hsz.
  fold (stored_length im w) in Hsz.
  pose proof (read_chunks_bound w (buffer im)
                (Z.to_nat (stored_length im w * CHAN_SIZE / w))
                (3 * (2 + ceil3 (len_chunks w))) ltac:(lia)) as Hpay.
  fold (stored_payload im w) in Hpay.
  assert (Hdiv : 0 <= stored_length im w * CHAN_SIZE / w)
    by (apply Z.div_pos; unfold CHAN_SIZE; lia).
  assert (Hbits : Z.of_nat (Z.to_nat (stored_length im w * CHAN_SIZE / w)) * w
                  <= 8 * stored_length im w).
  { rewrite Z2Nat.id by exact Hdiv. unfold CHAN_SIZE.
    pose proof (Z.mul_div_le (stored_length im w * 8) w ltac:(lia)). lia. }
  destruct (Z.eq_dec (stored_length im w) 0) as [E0|E0].
  { exfalso. rewrite E0 in *. change (0 * CHAN_SIZE / w) with (0 / w) in Hpay.
    rewrite Z.div_0_l in Hpay by lia. cbn in Hpay.
    rewrite int_to_bytes_zero_size in Hdec by exact Hpay. discriminate. }
  assert (Hn : stored_length im w = Z.of_nat (Z.to_nat (stored_length im w)))
    by (rewrite Z2Nat.id; lia).
  rewrite Hn in Hdec at 1.
  rewrite int_to_bytes_spec in Hdec;
    [| rewrite pow_256, <- Hn; split; [lia|];
       eapply Z.lt_le_trans; [apply Hpay|]; apply Z.pow_le_mono_r; lia
     | lia].
  assert (Hlen : length out = Z.to_nat (stored_length im w)).
  { destruct (Z.land (stored_prolog im) 248 =? LSBCodec.XOR_Y).
    - destruct xor_key as [key|]; [|discriminate]. injection Hdec as <-.
      rewrite xor_length, be_bytes_length; [reflexivity|].
      intros E. apply Hk. rewrite E. reflexivity.
    - injection Hdec as <-. apply be_bytes_length. }
  exists (Z.land (stored_prolog im) 248), w.
  rewrite Hlen, <- Hn.
  split; [apply read_fields_run; assumption || lia|].
  split; [exact Hw|]. split; [lia|].
  unfold pixels_needed, data_chunks. rewrite <- Hn. exact Hpix.
Qed.

Lemma decode_returns_length_field_bytes_witness :
  exists im',
    LSBEncoder.encode (zeros 2 5) [x41] 2 None = (im', Ok tt)
    /\ exists flag w,
         read_fields im' = Ok (flag, w, Z.of_nat (length [x41]))
         /\ 1 <= w <= 7
         /\ (1 <= length [x41])%nat
         /\ (pixels_needed w (length [x41]) <= shape_h im' * shape_w im')%nat.
Proof.
  eexists. split; [vm_compute; reflexivity|].
  refine (decode_returns_length_field_bytes _ None [x41] _ _ _).
  - reflexivity.
  - discriminate.
  - vm_compute. reflexivity.
Defined.

(** ** [available] *)

(** X20.  Capacity does not shrink with the width: on an image of at least
    two channel values, [available] at a valid width is at most
    [available] at any larger valid width. *)
Theorem available_grows_with_width (im : image) (a b : Z)
    (Ha : 1 <= a) (Hab : a <= b) (Hb : b <= 8) (Hsize : 2 <= img_size im) :
  exists va vb,
    LSBCodec.available im a = Ok va /\ LSBCodec.available im b = Ok vb /\ va <= vb.
Proof.
  exists (available_value im a), (available_value im b).
  split; [apply available_spec; lia|]. split; [apply available_spec; lia|].
  unfold available_value.
  pose proof (chan_per_byte_pos a ltac:(lia)) as Hpa.
  pose proof (chan_per_byte_pos b ltac:(lia)) as Hpb.
  assert (Hper : CHAN_SIZE / b <= CHAN_SIZE / a)
    by (apply Z.div_le_compat_l; unfold CHAN_SIZE; lia).
  assert (Hq : (img_size im - PROLOG_SIZE) / (CHAN_SIZE / a)
               <= (img_size im - PROLOG_SIZE) / (CHAN_SIZE / b))
    by (apply Z.div_le_compat_l; unfold PROLOG_SIZE; lia).
  lia.
Qed.

Lemma available_grows_with_width_witness :
  1 <= 2 /\ 2 <= 4 /\ 4 <= 8 /\ 2 <= img_size (zeros 4 4)
  /\ exists va vb,
       LSBCodec.available (zeros 4 4) 2 = Ok va
       /\ LSBCodec.available (zeros 4 4) 4 = Ok vb /\ va <= vb.
Proof.
  assert (H1 : 1 <= 2) by lia. assert (H2 : 2 <= 4) by lia. assert (H3 : 4 <= 8) by lia.
  assert (H4 : 2 <= img_size (zeros 4 4)) by (vm_compute; discriminate).
  split; [exact H1|]. split; [exact H2|]. split; [exact H3|]. split; [exact H4|].
  exact (available_grows_with_width (zeros 4 4) 2 4 H1 H2 H3 H4).
Defined.
